(** * floodfill-bg: the removal engine, the seed resolver and the edge trimmer

    A shallow embedding of [libs/common.py] and [libs/removal.py].

    - A decoded RGBA image is a record of its width, its height and a finite
      map from coordinates [(x, y)] to RGBA tuples; a well-formed image
      defines exactly the coordinates of its grid.
    - The pixel accessor of the image library is not part of the repository.
      Reading or writing outside the grid is outside the contract of the
      removal functions; the model stops there with [None].
    - The flood-fill [while] loop is a step function on the loop state
      (pixels, visited marks, queue, counter), iterated with fuel; the grid of
      visited flags is the set of the coordinates whose flag is set.
    - The threshold is an integer, as the command line passes it; the
      comparison of the distance with it is a comparison of squares, and
      [within_threshold_spec] relates it to the real-valued distance.
    - [Image.getbbox] and [Image.crop] are modelled from the contract of the
      edge trimmer.
    - Seed strings are ASCII; floats are binary64 numbers computed with the
      operations of [SpecFloat]. *)

From Stdlib Require Import ZArith List Bool Lia Reals Lra Ascii String.
From Stdlib Require Import Floats.SpecFloat.
From stdpp Require Import base option numbers list sets gmap fin_sets fin_maps.

Local Open Scope Z_scope.

(** ** Data model *)

Abbreviation coord := (Z * Z)%type.
Abbreviation color := (Z * Z * Z * Z)%type.

Record image := Image {
  width : Z;
  height : Z;
  pixels : gmap coord color
}.

Definition transparent : color := (0, 0, 0, 0).

Definition alpha (c : color) : Z := let '(_, _, _, a) := c in a.

Definition in_bounds (w h : Z) (c : coord) : Prop :=
  0 <= c.1 < w ∧ 0 <= c.2 < h.

Definition in_boundsb (w h : Z) (c : coord) : bool :=
  (0 <=? c.1) && (c.1 <? w) && (0 <=? c.2) && (c.2 <? h).

(** [for y in range(h): for x in range(w)]: the grid in raster order. *)
Definition coords (w h : Z) : list coord :=
  y ← seqZ 0 h; x ← seqZ 0 w; [(x, y)].

Definition wf_image (img : image) : Prop :=
  ∀ c, is_Some (pixels img !! c) ↔ in_bounds (width img) (height img) c.

(** [pixels[x, y]] *)
Definition getpixel (img : image) (c : coord) : option color :=
  if in_boundsb (width img) (height img) c then pixels img !! c else None.

(** ** common.py: color_distance *)

(** The radicand of [color_distance]: alpha is dropped by [color[:3]]. *)
Definition color_distance_sq (color1 color2 : color) : Z :=
  let '(r1, g1, b1, _) := color1 in
  let '(r2, g2, b2, _) := color2 in
  (r1 - r2) ^ 2 + (g1 - g2) ^ 2 + (b1 - b2) ^ 2.

(** [color_distance]: the Euclidean distance over R, G and B, as the real
    number that the floating-point value of the source approximates. *)
Definition color_distance (color1 color2 : color) : R :=
  sqrt (IZR (color_distance_sq color1 color2)).

(** [color_distance(sc, current_color) <= threshold] for an integral
    threshold: the square root of a natural number is at most [t] exactly
    when [t] is non-negative and the number is at most [t * t]. *)
Definition within_threshold (sc current_color : color) (threshold : Z) : bool :=
  (0 <=? threshold) && (color_distance_sq sc current_color <=? threshold * threshold).

(** [any(color_distance(sc, current_color) <= threshold for sc in seed_colors)] *)
Definition any_within (seed_colors : list color) (current_color : color)
    (threshold : Z) : bool :=
  existsb (λ sc, within_threshold sc current_color threshold) seed_colors.

(** ** removal.py: floodfill_remove *)

Definition neighbors (eight_way : bool) : list coord :=
  [(0, -1); (-1, 0); (1, 0); (0, 1)]
  ++ (if eight_way then [(-1, -1); (1, -1); (-1, 1); (1, 1)] else []).

Record bfs_state := BfsState {
  st_pixels : gmap coord color;
  st_visited : gset coord;
  st_queue : list coord;
  st_removed : nat
}.

Inductive step_result :=
| Continue (st : bfs_state)
| Break
| Fault.

(** The [for dx, dy in neighbors] loop appending to the queue. *)
Definition enqueue_neighbors (w h : Z) (nbrs : list coord) (c : coord)
    (queue : list coord) : list coord :=
  foldl (λ q d,
           let n := (c.1 + d.1, c.2 + d.2) in
           if in_boundsb w h n then q ++ [n] else q)
        queue nbrs.

Global Arguments neighbors : simpl never.
Global Arguments enqueue_neighbors : simpl never.

(** One iteration of [while queue]. *)
Definition bfs_step (w h : Z) (nbrs : list coord) (seed_colors : list color)
    (threshold : Z) (st : bfs_state) : step_result :=
  match st_queue st with
  | [] => Break
  | c :: queue =>
    if negb (in_boundsb w h c) then Fault
    else if bool_decide (c ∈ st_visited st) then
      Continue (BfsState (st_pixels st) (st_visited st) queue (st_removed st))
    else
      let visited := {[c]} ∪ st_visited st in
      match st_pixels st !! c with
      | None => Fault
      | Some current_color =>
        if negb (any_within seed_colors current_color threshold) then
          Continue (BfsState (st_pixels st) visited queue (st_removed st))
        else
          Continue (BfsState (<[c := transparent]> (st_pixels st)) visited
                             (enqueue_neighbors w h nbrs c queue)
                             (S (st_removed st)))
      end
  end.

Fixpoint bfs_loop (w h : Z) (nbrs : list coord) (seed_colors : list color)
    (threshold : Z) (fuel : nat) (st : bfs_state) : option bfs_state :=
  match fuel with
  | O => None
  | S fuel' =>
    match bfs_step w h nbrs seed_colors threshold st with
    | Break => Some st
    | Fault => None
    | Continue st' => bfs_loop w h nbrs seed_colors threshold fuel' st'
    end
  end.

(** [list(set(pixels[x, y] for x, y in seeds))] *)
Definition unique_seed_colors (img : image) (seeds : list coord) : option (list color) :=
  sampled ← mapM (getpixel img) seeds;
  Some (elements (list_to_set sampled : gset color)).

Definition floodfill_run (fuel : nat) (img : image) (seeds : list coord)
    (threshold : Z) (eight_way : bool) : option (image * nat) :=
  let w := width img in
  let h := height img in
  seed_colors ← unique_seed_colors img seeds;
  st ← bfs_loop w h (neighbors eight_way) seed_colors threshold fuel
         (BfsState (pixels img) ∅ seeds 0%nat);
  Some (Image w h (st_pixels st), st_removed st).

(** Every iteration pops one coordinate; the seeds and at most eight
    neighbours per grid cell are ever pushed. *)
Definition floodfill_fuel (img : image) (seeds : list coord) : nat :=
  S (length seeds + 9 * Z.to_nat (width img) * Z.to_nat (height img)).

Definition floodfill_remove (img : image) (seeds : list coord)
    (threshold : Z) (eight_way : bool) : option (image * nat) :=
  floodfill_run (floodfill_fuel img seeds) img seeds threshold eight_way.

(** ** removal.py: global_purge *)

(** The body of the inner loop, on the buffer and the counter. *)
Definition purge_pixel (seed_colors : list color) (threshold : Z)
    (acc : gmap coord color * nat) (c : coord) : option (gmap coord color * nat) :=
  current_color ← acc.1 !! c;
  if any_within seed_colors current_color threshold
  then Some (<[c := transparent]> acc.1, S acc.2)
  else Some acc.

Fixpoint for_each {A S : Type} (body : S → A → option S) (s : S) (l : list A) : option S :=
  match l with
  | [] => Some s
  | a :: l' => s' ← body s a; for_each body s' l'
  end.

Definition global_purge (img : image) (seeds : list coord) (threshold : Z)
    : option (image * nat) :=
  let w := width img in
  let h := height img in
  seed_colors ← mapM (getpixel img) seeds;
  acc ← for_each (λ acc y,
           for_each (λ acc x, purge_pixel seed_colors threshold acc (x, y))
                    acc (seqZ 0 w))
         (pixels img, 0%nat) (seqZ 0 h);
  Some (Image w h acc.1, acc.2).

(** ** common.py: trim_transparent *)

(** The pixel at [c] has nonzero alpha. *)
Definition visible (img : image) (c : coord) : bool :=
  match pixels img !! c with
  | Some p => negb (alpha p =? 0)
  | None => false
  end.

(** Modelled from the spec: [Image.getbbox] belongs to the image library,
    which is not part of the repository. Following section 4.4, it is the
    smallest box (left, top, right, bottom), right and bottom exclusive, that
    contains every pixel with nonzero alpha, and [None] when there is no
    such pixel. *)
Definition getbbox (img : image) : option (Z * Z * Z * Z) :=
  match filter (λ c, visible img c = true) (coords (width img) (height img)) with
  | [] => None
  | c :: cs =>
    Some (foldr Z.min c.1 (fst <$> cs), foldr Z.min c.2 (snd <$> cs),
          foldr Z.max c.1 (fst <$> cs) + 1, foldr Z.max c.2 (snd <$> cs) + 1)
  end.

(** Modelled from the spec: [Image.crop] belongs to the image library, which
    is not part of the repository. Following section 4.4, it is a new buffer
    of the size of the box that holds the pixels with x in [left, right) and
    y in [top, bottom); a position outside the source would be (0,0,0,0). *)
Definition crop (img : image) (box : Z * Z * Z * Z) : image :=
  let '(lft, top, rgt, bot) := box in
  Image (rgt - lft) (bot - top)
    (list_to_map
       ((λ c, (c, default transparent (pixels img !! (c.1 + lft, c.2 + top))))
          <$> coords (rgt - lft) (bot - top))).

Definition trim_transparent (img : image) : image * (Z * Z * Z * Z) :=
  match getbbox img with
  | None => (img, (0, 0, width img, height img))
  | Some bbox => (crop img bbox, bbox)
  end.

(** [box] contains every pixel of [img] with nonzero alpha. *)
Definition encloses (img : image) (box : Z * Z * Z * Z) : Prop :=
  let '(lft, top, rgt, bot) := box in
  ∀ c, visible img c = true → lft <= c.1 < rgt ∧ top <= c.2 < bot.

(** [box] encloses the visible pixels of [img] and a visible pixel lies on
    each of its four sides. *)
Definition tight_box (img : image) (box : Z * Z * Z * Z) : Prop :=
  let '(lft, top, rgt, bot) := box in
  encloses img box ∧
  (∃ c, visible img c = true ∧ c.1 = lft) ∧
  (∃ c, visible img c = true ∧ c.2 = top) ∧
  (∃ c, visible img c = true ∧ c.1 = rgt - 1) ∧
  (∃ c, visible img c = true ∧ c.2 = bot - 1).

(** ** common.py: parse_seed *)

(** Strings are sequences of ASCII characters. The builtins that
    [parse_seed] calls ([str.strip], [str.split], [float], [int], the
    comparison of a float with an int) follow the language reference;
    floats are IEEE 754 binary64 numbers, computed with the operations of
    [SpecFloat]. *)

Inductive seed_error :=
| InvalidFormat   (* ValueError: Seed must be "x,y" or "x%,y%" format *)
| InvalidNumber   (* ValueError: Invalid number *)
| OutOfRange      (* ValueError: Percentage must be 0-100 / Coordinate out of range *)
| Overflow.       (* OverflowError of a conversion between int and float *)

Inductive result (A : Type) :=
| Ok (a : A)
| Err (e : seed_error).
Global Arguments Ok {A} a.
Global Arguments Err {A} e.

Definition bind_result {A B} (r : result A) (k : A → result B) : result B :=
  match r with
  | Ok a => k a
  | Err e => Err e
  end.

Notation "x <- r ;; k" := (bind_result r (λ x, k))
  (at level 100, r at next level, right associativity).

Definition or_raise {A} (e : seed_error) (o : option A) : result A :=
  match o with
  | Some a => Ok a
  | None => Err e
  end.

(** The whitespace of [str.strip] among ASCII characters: tab to carriage
    return, the four separators 28 to 31, and the space. *)
Definition is_space (a : ascii) : bool :=
  let n := nat_of_ascii a in
  ((9 <=? n) && (n <=? 13) || (28 <=? n) && (n <=? 32))%nat.

(** The whitespace that [float] skips around an ASCII string: tab to
    carriage return, and the space. *)
Definition is_c_space (a : ascii) : bool :=
  let n := nat_of_ascii a in
  ((9 <=? n) && (n <=? 13) || (n =? 32))%nat.

Fixpoint lstrip (space : ascii → bool) (s : list ascii) : list ascii :=
  match s with
  | a :: s' => if space a then lstrip space s' else s
  | [] => []
  end.

Definition strip_with (space : ascii → bool) (s : list ascii) : list ascii :=
  reverse (lstrip space (reverse (lstrip space s))).

(** [s.strip()] *)
Definition strip (s : list ascii) : list ascii := strip_with is_space s.

(** [s.split(",")]: one part more than there are commas. *)
Fixpoint split_comma (s : list ascii) : list (list ascii) :=
  match s with
  | [] => [[]]
  | a :: s' =>
    match split_comma s' with
    | p :: ps => if Ascii.eqb a "," then [] :: p :: ps else (a :: p) :: ps
    | [] => [[a]]
    end
  end.

(** [s.endswith("%")] *)
Definition ends_with_percent (s : list ascii) : bool :=
  match last s with
  | Some a => Ascii.eqb a "%"
  | None => false
  end.

(** *** The builtin [float] on a string *)

Abbreviation binary64 := spec_float.

Definition f64_prec : Z := 53.
Definition f64_emax : Z := 1024.

Definition digit_value (a : ascii) : option Z :=
  let n := nat_of_ascii a in
  if ((48 <=? n) && (n <=? 57))%nat then Some (Z.of_nat n - 48) else None.

Definition is_digit (a : ascii) : bool :=
  match digit_value a with
  | Some _ => true
  | None => false
  end.

(** Underscores are accepted between two digits only, and dropped. [prev]
    is the character before [s]. *)
Fixpoint drop_underscores (prev : ascii) (s : list ascii) : option (list ascii) :=
  match s with
  | [] => if Ascii.eqb prev "_" then None else Some []
  | a :: s' =>
    if Ascii.eqb a "_" then
      if is_digit prev then drop_underscores a s' else None
    else if Ascii.eqb prev "_" && negb (is_digit a) then None
    else cons a <$> drop_underscores a s'
  end.

(** The longest prefix of decimal digits, as digit values, and what
    follows it. *)
Fixpoint take_digits (s : list ascii) : list Z * list ascii :=
  match s with
  | a :: s' =>
    match digit_value a with
    | Some d => let '(ds, rest) := take_digits s' in (d :: ds, rest)
    | None => ([], s)
    end
  | [] => ([], [])
  end.

Definition digits_to_Z (ds : list Z) : Z := foldl (λ n d, 10 * n + d) 0 ds.

Definition lower (a : ascii) : ascii :=
  let n := nat_of_ascii a in
  if ((65 <=? n) && (n <=? 90))%nat then ascii_of_nat (n + 32) else a.

Definition take_sign (s : list ascii) : bool * list ascii :=
  match s with
  | a :: s' =>
    if Ascii.eqb a "-" then (true, s')
    else if Ascii.eqb a "+" then (false, s')
    else (false, s)
  | [] => (false, [])
  end.

(** The optional exponent: [e] or [E], an optional sign and at least one
    digit. Without a digit the [e] does not belong to the number. *)
Definition take_exponent (s : list ascii) : Z * list ascii :=
  match s with
  | a :: s' =>
    if Ascii.eqb (lower a) "e" then
      let '(neg, s'') := take_sign s' in
      match take_digits s'' with
      | ([], _) => (0, s)
      | (ds, rest) => (if neg then - digits_to_Z ds else digits_to_Z ds, rest)
      end
    else (0, s)
  | [] => (0, [])
  end.

(** The float nearest to [(-1)^neg * m * 10^e], ties to even; beyond the
    largest float it is an infinity. *)
Definition decimal_to_float (neg : bool) (m e : Z) : binary64 :=
  match m with
  | Zpos p =>
    match e with
    | Zneg k =>
      SFdiv f64_prec f64_emax (S754_finite neg p 0)
            (S754_finite false (Pos.pow 10 k) 0)
    | _ =>
      binary_normalize f64_prec f64_emax
        (if neg then - (m * 10 ^ e) else m * 10 ^ e) 0 false
    end
  | _ => S754_zero neg
  end.

(** [float(s)]: an optional sign, then [inf], [infinity] or [nan] in any
    case, or digits with an optional point and an optional exponent.
    [None] stands for ValueError. *)
Definition py_float (s : list ascii) : option binary64 :=
  s ← drop_underscores zero s;
  let '(neg, body) := take_sign (strip_with is_c_space s) in
  let word := string_of_list_ascii (lower <$> body) in
  if String.eqb word "inf" || String.eqb word "infinity"
  then Some (S754_infinity neg)
  else if String.eqb word "nan" then Some S754_nan
  else
    let '(int_digits, rest) := take_digits body in
    let '(frac_digits, rest) :=
      match rest with
      | a :: rest' => if Ascii.eqb a "." then take_digits rest' else ([], rest)
      | [] => ([], [])
      end in
    let '(exponent, rest) := take_exponent rest in
    match int_digits ++ frac_digits, rest with
    | _ :: _, [] =>
      Some (decimal_to_float neg (digits_to_Z (int_digits ++ frac_digits))
                             (exponent - Z.of_nat (length frac_digits)))
    | _, _ => None
    end.

(** The conversion of an int to a float in mixed arithmetic: the nearest
    float, ties to even; [None] stands for OverflowError. *)
Definition int_to_float (n : Z) : option binary64 :=
  match binary_normalize f64_prec f64_emax n 0 false with
  | S754_infinity _ => None
  | x => Some x
  end.

(** [int(x)]: truncation toward zero; [None] for an infinity or a NaN,
    where Python raises. *)
Definition float_to_int (x : binary64) : option Z :=
  match x with
  | S754_zero _ => Some 0
  | S754_finite neg m e =>
    let v := match e with
             | Zneg k => Z.shiftr (Zpos m) (Zpos k)
             | _ => Z.shiftl (Zpos m) e
             end in
    Some (if neg then - v else v)
  | _ => None
  end.

(** The order between a float and an int, which Python compares exactly;
    a NaN is unordered. *)
Definition float_cmp_int (x : binary64) (n : Z) : option comparison :=
  match x with
  | S754_zero _ => Some (0 ?= n)
  | S754_infinity neg => Some (if neg then Lt else Gt)
  | S754_nan => None
  | S754_finite neg m e =>
    let v := if neg then Zneg m else Zpos m in
    match e with
    | Zneg k => Some (v ?= n * 2 ^ Zpos k)
    | _ => Some (v * 2 ^ e ?= n)
    end
  end.

(** [x <= n] *)
Definition float_le_int (x : binary64) (n : Z) : bool :=
  match float_cmp_int x n with
  | Some Lt | Some Eq => true
  | _ => false
  end.

(** [x < n] *)
Definition float_lt_int (x : binary64) (n : Z) : bool :=
  match float_cmp_int x n with
  | Some Lt => true
  | _ => false
  end.

(** [n <= x] *)
Definition int_le_float (n : Z) (x : binary64) : bool :=
  match float_cmp_int x n with
  | Some Gt | Some Eq => true
  | _ => false
  end.

Global Arguments py_float : simpl never.
Global Arguments int_to_float : simpl never.
Global Arguments float_to_int : simpl never.
Global Arguments float_cmp_int : simpl never.
Global Arguments strip : simpl never.

(** *** parse_seed *)

Definition _parse_number (s : list ascii) : result binary64 :=
  or_raise InvalidNumber (py_float s).

(** The body of the loop over the two parts. *)
Definition parse_part (part : list ascii) (max_val : Z) : result binary64 :=
  let part := strip part in
  if ends_with_percent part then
    pct <- _parse_number (removelast part);;
    if negb (int_le_float 0 pct && float_le_int pct 100) then Err OutOfRange
    else
      hundred <- or_raise Overflow (int_to_float 100);;
      scale <- or_raise Overflow (int_to_float (max_val - 1));;
      Ok (SFmul f64_prec f64_emax (SFdiv f64_prec f64_emax pct hundred) scale)
  else
    val <- _parse_number part;;
    if negb (int_le_float 0 val && float_lt_int val max_val) then Err OutOfRange
    else Ok val.

Definition parse_seed (seed_str : string) (width height : Z) : result coord :=
  match split_comma (strip (list_ascii_of_string seed_str)) with
  | [part0; part1] =>
    x <- parse_part part0 width;;
    y <- parse_part part1 height;;
    ix <- or_raise Overflow (float_to_int x);;
    iy <- or_raise Overflow (float_to_int y);;
    Ok (ix, iy)
  | _ => Err InvalidFormat
  end.

(** *** Specification vocabulary for the seed resolver *)

(** The result of [parse_seed] on a string with exactly two parts. *)
Definition combine_parts (rx ry : result binary64) : result coord :=
  x <- rx;; y <- ry;;
  ix <- or_raise Overflow (float_to_int x);;
  iy <- or_raise Overflow (float_to_int y);;
  Ok (ix, iy).


(** The parts of a seed string, stripped. *)
Definition seed_parts (seed_str : string) : list (list ascii) :=
  strip <$> split_comma (strip (list_ascii_of_string seed_str)).

(** The text of the number of a stripped part: the part without its
    percent sign. *)
Definition number_text (part : list ascii) : list ascii :=
  if ends_with_percent part then removelast part else part.

(** The part is not numeric. *)
Definition not_numeric (part : list ascii) : Prop :=
  py_float (number_text part) = None.

(** The part is a percentage outside [0, 100] or an absolute coordinate
    outside [0, max_val). *)
Definition out_of_range (part : list ascii) (max_val : Z) : Prop :=
  ∃ v, py_float (number_text part) = Some v ∧
       (if ends_with_percent part
        then int_le_float 0 v && float_le_int v 100
        else int_le_float 0 v && float_lt_int v max_val) = false.

(** The part is numeric and in range, and stands for the float [x]: a
    percentage [p] for [(p / 100) * (max_val - 1)], an absolute coordinate
    for itself. *)
Definition part_float (part : list ascii) (max_val : Z) (x : binary64) : Prop :=
  ∃ v, py_float (number_text part) = Some v ∧
       if ends_with_percent part
       then int_le_float 0 v && float_le_int v 100 = true ∧
            ∃ hundred scale,
              int_to_float 100 = Some hundred ∧
              int_to_float (max_val - 1) = Some scale ∧
              x = SFmul f64_prec f64_emax (SFdiv f64_prec f64_emax v hundred) scale
       else int_le_float 0 v && float_lt_int v max_val = true ∧ x = v.

(** ** Building test images *)

(** An image from its rows, top row first. *)
Definition image_of_rows (w h : Z) (rows : list (list color)) : image :=
  Image w h
    (list_to_map (c ← coords w h;
                  match rows !! Z.to_nat c.2 ≫= (.!! Z.to_nat c.1) with
                  | Some p => [(c, p)]
                  | None => []
                  end)).

Definition rows_of_image (img : image) : list (list (option color)) :=
  (λ y, (λ x, pixels img !! (x, y)) <$> seqZ 0 (width img)) <$> seqZ 0 (height img).

Definition red : color := (255, 0, 0, 255).
Definition blue : color := (0, 0, 255, 255).

(** A red pixel, a blue pixel and a red island behind it. *)
Definition island_image : image := image_of_rows 3 1 [[red; blue; red]].

Definition island_seeds : list coord := [(0, 0)].

Definition black : color := (0, 0, 0, 255).
Definition white : color := (255, 255, 255, 255).

(** A black seed pixel, a white pixel, and behind it a pixel at distance
    exactly 5 from black. *)
Definition gap_image : image := image_of_rows 3 1 [[black; white; (3, 4, 0, 255)]].

(** A 4x5 transparent buffer with one opaque red pixel at (2, 3). *)
Definition dot_image : image :=
  Image 4 5 (<[(2, 3) := red]> (pixels (image_of_rows 4 5 (replicate 5 (replicate 4 transparent))))).

(** A decidable check of [wf_image]. *)
Definition wf_imageb (img : image) : bool :=
  bool_decide (dom (pixels img) = list_to_set (coords (width img) (height img))).

(** ** Specification vocabulary for the removal engine *)

(** The color of [c] in [img] is within the threshold of the color of at
    least one seed pixel of [img]. *)
Definition seed_match (img : image) (seeds : list coord) (threshold : Z)
    (c : coord) : bool :=
  match pixels img !! c with
  | Some current_color =>
    existsb (λ s, match pixels img !! s with
                  | Some sc => within_threshold sc current_color threshold
                  | None => false
                  end) seeds
  | None => false
  end.

(** [c'] is one of the 4 (or 8) grid neighbours of [c]. *)
Definition adjacent (eight_way : bool) (c c' : coord) : Prop :=
  ∃ d, d ∈ neighbors eight_way ∧ c' = (c.1 + d.1, c.2 + d.2).

(** [c] is reached from a seed by a chain of adjacent pixels of [img], all
    of which (the seed and [c] included) match a seed color. *)
Inductive connected (img : image) (seeds : list coord) (threshold : Z)
    (eight_way : bool) : coord → Prop :=
| connected_seed s :
    s ∈ seeds → seed_match img seeds threshold s = true →
    connected img seeds threshold eight_way s
| connected_step c c' :
    connected img seeds threshold eight_way c →
    adjacent eight_way c c' →
    seed_match img seeds threshold c' = true →
    connected img seeds threshold eight_way c'.

(** The pixels of the grid that match a seed color, in raster order. *)
Definition matching_pixels (img : image) (seeds : list coord) (threshold : Z)
    : list coord :=
  filter (λ c, seed_match img seeds threshold c = true)
         (coords (width img) (height img)).

(** The visited pixels that matched, hence were overwritten. *)
Definition removed_set (img : image) (seeds : list coord) (threshold : Z)
    (visited : gset coord) : gset coord :=
  filter (λ c, seed_match img seeds threshold c = true) visited.

(** The loop invariant of the flood fill started on [img]. *)
Record bfs_inv (img : image) (seeds : list coord) (threshold : Z)
    (eight_way : bool) (st : bfs_state) : Prop := BfsInv {
  inv_queue : ∀ c, c ∈ st_queue st → in_bounds (width img) (height img) c;
  inv_visited : ∀ c, c ∈ st_visited st → in_bounds (width img) (height img) c;
  inv_pixels : ∀ c,
    st_pixels st !! c =
      if bool_decide (c ∈ removed_set img seeds threshold (st_visited st))
      then Some transparent else pixels img !! c;
  inv_removed :
    st_removed st = size (removed_set img seeds threshold (st_visited st));
  inv_sound : ∀ c,
    c ∈ st_visited st ∨ c ∈ st_queue st →
    seed_match img seeds threshold c = true →
    connected img seeds threshold eight_way c;
  inv_seeds : ∀ s, s ∈ seeds → s ∈ st_visited st ∨ s ∈ st_queue st;
  inv_closed : ∀ c c',
    c ∈ removed_set img seeds threshold (st_visited st) →
    adjacent eight_way c c' →
    in_bounds (width img) (height img) c' →
    c' ∈ st_visited st ∨ c' ∈ st_queue st
}.

(** The color of [c] lies at distance exactly [threshold] from the color of
    a seed pixel. *)
Definition at_threshold (img : image) (seeds : list coord) (threshold : Z)
    (c : coord) : Prop :=
  ∃ cur s sc,
    pixels img !! c = Some cur ∧ s ∈ seeds ∧ pixels img !! s = Some sc ∧
    color_distance sc cur = IZR threshold.

(** The color of [c] lies strictly beyond [threshold] from the color of
    every seed pixel. *)
Definition beyond_threshold (img : image) (seeds : list coord) (threshold : Z)
    (c : coord) : Prop :=
  ∃ cur,
    pixels img !! c = Some cur ∧
    ∀ s sc, s ∈ seeds → pixels img !! s = Some sc →
            (IZR threshold < color_distance sc cur)%R.

(** The pixels of the grid whose value differs between two buffers. *)
Definition changed_pixels (img img' : image) : list coord :=
  filter (λ c, pixels img' !! c ≠ pixels img !! c)
         (coords (width img) (height img)).

(** The loop states met when the loop is started in [st0]. *)
Inductive bfs_reaches (w h : Z) (nbrs : list coord) (seed_colors : list color)
    (threshold : Z) (st0 : bfs_state) : bfs_state → Prop :=
| bfs_reaches_start :
    bfs_reaches w h nbrs seed_colors threshold st0 st0
| bfs_reaches_step st st' :
    bfs_reaches w h nbrs seed_colors threshold st0 st →
    bfs_step w h nbrs seed_colors threshold st = Continue st' →
    bfs_reaches w h nbrs seed_colors threshold st0 st'.

(** The variant of the loop: queued coordinates, plus nine for every pixel
    of the grid not yet visited. *)
Definition bfs_measure (img : image) (st : bfs_state) : nat :=
  (length (st_queue st)
   + 9 * size (list_to_set (coords (width img) (height img)) ∖ st_visited st
               : gset coord))%nat.

(** ** common.py: get_corner_seeds *)

Definition get_corner_seeds (width height : Z) : list coord :=
  [(0, 0); (width - 1, 0); (0, height - 1); (width - 1, height - 1)].

(** ** validation.py: validate_threshold *)

Definition THRESHOLD_MIN : Z := 0.
Definition THRESHOLD_MAX : Z := 441.

(** [None] stands for click.BadParameter. *)
Definition validate_threshold (value : Z) : option Z :=
  if negb ((THRESHOLD_MIN <=? value) && (value <=? THRESHOLD_MAX)) then None
  else Some value.

(** ** Further specification vocabulary *)

(** The channels that [color_distance] reads. *)
Definition rgb (c : color) : Z * Z * Z := let '(r, g, b, _) := c in (r, g, b).

(** Every channel is a byte. *)
Definition valid_color (c : color) : Prop :=
  let '(r, g, b, a) := c in
  0 <= r <= 255 ∧ 0 <= g <= 255 ∧ 0 <= b <= 255 ∧ 0 <= a <= 255.

(** The number of commas of a string. *)
Definition count_commas (s : list ascii) : nat :=
  length (filter (λ a, Ascii.eqb a "," = true) s).

(** The part ends with a percent sign once it is stripped. *)
Definition is_percentage (part : list ascii) : bool :=
  ends_with_percent (strip part).

(** The float 1.0. *)
Definition f64_one : binary64 := S754_finite false 4503599627370496 (-52).

(** A dimension for which the part [100%] is resolved to the last index:
    the test evaluates the scaling [1.0 * (max_val - 1)] and its
    truncation. *)
Definition full_percentage_hits_last (max_val : Z) : bool :=
  match int_to_float (max_val - 1) with
  | Some scale =>
    match float_to_int (SFmul f64_prec f64_emax f64_one scale) with
    | Some x => x =? max_val - 1
    | None => false
    end
  | None => false
  end.

(** [test] holds of the [n] integers from [z] on. *)
Fixpoint holds_from (test : Z → bool) (n : nat) (z : Z) : bool :=
  match n with
  | O => true
  | S n' => test z && holds_from test n' (z + 1)
  end.

(** * Proofs *)

(** ** The grid *)

Lemma in_boundsb_spec w h c : in_boundsb w h c = true ↔ in_bounds w h c.
Proof. unfold in_boundsb, in_bounds. rewrite !andb_true_iff. lia. Qed.

Lemma elem_of_coords w h c : c ∈ coords w h ↔ in_bounds w h c.
Proof.
  unfold coords, in_bounds. destruct c as [x y]. simpl.
  rewrite list_elem_of_bind. split.
  - intros (y' & Hin & Hy). apply list_elem_of_bind in Hin as (x' & Hin & Hx).
    apply list_elem_of_singleton in Hin. inversion Hin; subst.
    apply elem_of_seqZ in Hx, Hy. lia.
  - intros [Hx Hy]. exists y. split; [|apply elem_of_seqZ; lia].
    apply list_elem_of_bind. exists x. split; [left|apply elem_of_seqZ; lia].
Qed.

Lemma NoDup_coords w h : NoDup (coords w h).
Proof.
  unfold coords. apply NoDup_bind; [| |apply NoDup_seqZ].
  - intros y1 y2 c _ _ H1 H2.
    apply list_elem_of_bind in H1 as (x1 & H1 & _).
    apply list_elem_of_bind in H2 as (x2 & H2 & _).
    apply list_elem_of_singleton in H1, H2. congruence.
  - intros y _. apply NoDup_bind; [| |apply NoDup_seqZ].
    + intros x1 x2 c _ _ H1 H2.
      apply list_elem_of_singleton in H1, H2. congruence.
    + intros x _. apply NoDup_singleton.
Qed.

Lemma wf_imageb_spec img : wf_imageb img = true → wf_image img.
Proof.
  unfold wf_imageb, wf_image. intros Hd%bool_decide_eq_true c.
  rewrite <- elem_of_dom, Hd, elem_of_list_to_set. apply elem_of_coords.
Qed.

Lemma wf_lookup_Some img c p :
  wf_image img → pixels img !! c = Some p →
  in_bounds (width img) (height img) c.
Proof. intros Hwf Hp. apply Hwf. eauto. Qed.

Lemma wf_lookup_in_bounds img c :
  wf_image img → in_bounds (width img) (height img) c →
  is_Some (pixels img !! c).
Proof. intros Hwf Hc. by apply Hwf. Qed.

Lemma getpixel_in_bounds img c :
  in_bounds (width img) (height img) c → getpixel img c = pixels img !! c.
Proof. intros H. unfold getpixel. apply in_boundsb_spec in H. by rewrite H. Qed.

Lemma length_bind_const {A B} (f : A → list B) (n : nat) (l : list A) :
  (∀ a, length (f a) = n) → length (l ≫= f) = (length l * n)%nat.
Proof.
  intros Hf. induction l as [|a l IH]; csimpl; [done|].
  rewrite length_app, Hf, IH. lia.
Qed.

Lemma length_coords w h :
  length (coords w h) = (Z.to_nat w * Z.to_nat h)%nat.
Proof.
  unfold coords. rewrite (length_bind_const _ (Z.to_nat w)).
  - rewrite length_seqZ. lia.
  - intros y. rewrite (length_bind_const _ 1%nat) by done.
    rewrite length_seqZ. lia.
Qed.

(** ** Matching against the seed colors *)

Lemma getpixel_Some img c p : getpixel img c = Some p → pixels img !! c = Some p.
Proof. unfold getpixel. by destruct (in_boundsb _ _ _). Qed.

Lemma any_within_spec scs cur t :
  any_within scs cur t = true ↔ ∃ sc, sc ∈ scs ∧ within_threshold sc cur t = true.
Proof.
  unfold any_within. rewrite existsb_exists.
  by setoid_rewrite list_elem_of_In.
Qed.

Lemma seed_match_spec img seeds t c :
  seed_match img seeds t c = true ↔
  ∃ cur s sc, pixels img !! c = Some cur ∧ s ∈ seeds ∧
              pixels img !! s = Some sc ∧ within_threshold sc cur t = true.
Proof.
  unfold seed_match. destruct (pixels img !! c) as [cur|]; [|naive_solver].
  rewrite existsb_exists. setoid_rewrite <- list_elem_of_In. split.
  - intros (s & Hs & Hw). destruct (pixels img !! s) as [sc|] eqn:E; [|done].
    by exists cur, s, sc.
  - intros (cur' & s & sc & [= <-] & Hs & Hsc & Hw). exists s. by rewrite Hsc.
Qed.

Lemma sampled_any_within img seeds sampled t c cur :
  mapM (getpixel img) seeds = Some sampled →
  pixels img !! c = Some cur →
  any_within sampled cur t = seed_match img seeds t c.
Proof.
  intros Hs%mapM_Some Hc. apply eq_true_iff_eq.
  rewrite any_within_spec, seed_match_spec. split.
  - intros (sc & Hin & Hw).
    apply list_elem_of_lookup in Hin as [i Hi].
    destruct (Forall2_lookup_r _ _ _ _ _ Hs Hi) as (s & Hsi & Hg).
    exists cur, s, sc. split_and!; try done.
    + apply list_elem_of_lookup; eauto.
    + by apply getpixel_Some.
  - intros (cur' & s & sc & Hc' & Hin & Hsc & Hw).
    assert (cur' = cur) as -> by congruence.
    apply list_elem_of_lookup in Hin as [i Hi].
    destruct (Forall2_lookup_l _ _ _ _ _ Hs Hi) as (sc' & Hsi & Hg).
    apply getpixel_Some in Hg. assert (sc' = sc) as -> by congruence.
    exists sc. split; [|done]. apply list_elem_of_lookup; eauto.
Qed.

Lemma any_within_dedup (l : list color) cur t :
  any_within (elements (list_to_set l : gset color)) cur t = any_within l cur t.
Proof.
  apply eq_true_iff_eq. rewrite !any_within_spec.
  by setoid_rewrite elem_of_elements; setoid_rewrite elem_of_list_to_set.
Qed.

Lemma unique_any_within img seeds scs t c cur :
  unique_seed_colors img seeds = Some scs →
  pixels img !! c = Some cur →
  any_within scs cur t = seed_match img seeds t c.
Proof.
  unfold unique_seed_colors. intros Hu Hc.
  destruct (mapM (getpixel img) seeds) as [sampled|] eqn:E; [|done].
  simpl in Hu. injection Hu as <-.
  rewrite any_within_dedup. by eapply sampled_any_within.
Qed.

Lemma mapM_getpixel_is_Some img seeds :
  wf_image img →
  Forall (in_bounds (width img) (height img)) seeds →
  is_Some (mapM (getpixel img) seeds).
Proof.
  intros Hwf Hs. apply mapM_is_Some. eapply Forall_impl; [done|].
  intros c Hc. simpl. rewrite getpixel_in_bounds by done. by apply Hwf.
Qed.

Lemma seed_match_in_bounds img seeds t c :
  wf_image img → seed_match img seeds t c = true →
  in_bounds (width img) (height img) c.
Proof.
  intros Hwf (cur & _ & _ & Hc & _)%seed_match_spec. by eapply wf_lookup_Some.
Qed.

Lemma elem_of_removed_set img seeds t V c :
  c ∈ removed_set img seeds t V ↔ seed_match img seeds t c = true ∧ c ∈ V.
Proof. unfold removed_set. by rewrite elem_of_filter. Qed.

(** ** The neighbour loop *)

Lemma elem_of_enqueue_neighbors w h nbrs c q c' :
  c' ∈ enqueue_neighbors w h nbrs c q ↔
  c' ∈ q ∨ (in_bounds w h c' ∧ ∃ d, d ∈ nbrs ∧ c' = (c.1 + d.1, c.2 + d.2)).
Proof.
  unfold enqueue_neighbors. revert q.
  induction nbrs as [|d nbrs IH]; intros q; simpl.
  - split; [by left|]. intros [?|(_ & d & Hd & _)]; [done|]. by inversion Hd.
  - rewrite IH. destruct (in_boundsb w h _) eqn:E.
    + apply in_boundsb_spec in E. rewrite elem_of_app, list_elem_of_singleton.
      split.
      * intros [[?| ->]|(? & d' & ? & ?)]; [by left| |].
        -- right. split; [done|]. exists d. split; [left|done].
        -- right. split; [done|]. exists d'. split; [by right|done].
      * intros [?|(? & d' & [-> | ?]%elem_of_cons & ?)]; [by left;left| |].
        -- left. by right.
        -- right. split; [done|]. by exists d'.
    + split.
      * intros [?|(? & d' & ? & ?)]; [by left|].
        right. split; [done|]. exists d'. split; [by right|done].
      * intros [?|(Hb & d' & [-> | ?]%elem_of_cons & ->)]; [by left| |].
        -- apply in_boundsb_spec in Hb. congruence.
        -- right. split; [done|]. by exists d'.
Qed.

Lemma length_enqueue_neighbors w h nbrs c q :
  (length (enqueue_neighbors w h nbrs c q) ≤ length q + length nbrs)%nat.
Proof.
  unfold enqueue_neighbors. revert q.
  induction nbrs as [|d nbrs IH]; intros q; simpl; [lia|].
  etrans; [apply IH|]. destruct (in_boundsb _ _ _); rewrite ?length_app; simpl; lia.
Qed.

Lemma length_neighbors e : (length (neighbors e) ≤ 8)%nat.
Proof. destruct e; simpl; lia. Qed.

(** ** The flood-fill loop *)

Section bfs.
Context (img : image) (seeds : list coord) (threshold : Z) (eight_way : bool).
Context (seed_colors : list color).
Hypothesis Hwf : wf_image img.
Hypothesis Hcolors : ∀ c cur,
  pixels img !! c = Some cur →
  any_within seed_colors cur threshold = seed_match img seeds threshold c.

Local Abbreviation w := (width img).
Local Abbreviation h := (height img).
Local Abbreviation step := (bfs_step w h (neighbors eight_way) seed_colors threshold).
Local Abbreviation loop := (bfs_loop w h (neighbors eight_way) seed_colors threshold).
Local Abbreviation inv := (bfs_inv img seeds threshold eight_way).
Local Abbreviation matchb := (seed_match img seeds threshold).
Local Abbreviation rset := (removed_set img seeds threshold).

Lemma bfs_inv_init :
  Forall (in_bounds w h) seeds →
  inv (BfsState (pixels img) ∅ seeds 0%nat).
Proof.
  intros Hs. split; simpl.
  - intros c Hc. rewrite Forall_forall in Hs. auto.
  - set_solver.
  - intros c. rewrite bool_decide_eq_false_2; [done|].
    rewrite elem_of_removed_set. set_solver.
  - replace (rset ∅) with (∅ : gset coord); [by rewrite size_empty|].
  apply set_eq. intros c. rewrite elem_of_removed_set. set_solver.
  - intros c [?|Hc] Hm; [set_solver|]. by apply connected_seed.
  - auto.
  - intros c c'. rewrite elem_of_removed_set. set_solver.
Qed.

Lemma unvisited_pixel st c :
  inv st → c ∉ st_visited st → st_pixels st !! c = pixels img !! c.
Proof.
  intros Hinv Hc. rewrite (inv_pixels _ _ _ _ _ Hinv).
  rewrite bool_decide_eq_false_2; [done|].
  rewrite elem_of_removed_set. tauto.
Qed.

Lemma bfs_step_no_fault st : inv st → step st ≠ Fault.
Proof.
  intros Hinv. unfold bfs_step.
  destruct (st_queue st) as [|c q] eqn:Eq; [done|].
  assert (in_bounds w h c) as Hc.
  { apply (inv_queue _ _ _ _ _ Hinv). rewrite Eq. left. }
  pose proof Hc as Hcb. apply in_boundsb_spec in Hcb. rewrite Hcb. simpl.
  case_bool_decide as Hv; [done|].
  rewrite (unvisited_pixel _ _ Hinv Hv).
  destruct (wf_lookup_in_bounds _ _ Hwf Hc) as [cur ->].
  by destruct (any_within _ _ _).
Qed.

Lemma rset_mark_match V c :
  matchb c = true → rset ({[c]} ∪ V) = {[c]} ∪ rset V.
Proof.
  intros Hm. apply set_eq. intros c'.
  rewrite elem_of_union, !elem_of_removed_set, elem_of_union, elem_of_singleton.
  naive_solver.
Qed.

Lemma rset_mark_nomatch V c :
  matchb c = false → rset ({[c]} ∪ V) = rset V.
Proof.
  intros Hm. apply set_eq. intros c'.
  rewrite !elem_of_removed_set, elem_of_union, elem_of_singleton.
  split; [|tauto]. intros [Hm' [->|?]]; [congruence|done].
Qed.

Lemma bfs_step_inv st st' : inv st → step st = Continue st' → inv st'.
Proof.
  intros Hinv. unfold bfs_step.
  destruct (st_queue st) as [|c q] eqn:Eq; [done|].
  assert (in_bounds w h c) as Hc.
  { apply (inv_queue _ _ _ _ _ Hinv). rewrite Eq. left. }
  pose proof Hc as Hcb. apply in_boundsb_spec in Hcb. rewrite Hcb. simpl.
  destruct Hinv as [Hq Hv Hp Hr Hs Hsd Hcl]. rewrite Eq in *.
  case_bool_decide as Hvis.
  { (* already visited: skipped *)
    intros [= <-]. split; simpl; try done.
    - intros c' Hc'. apply Hq. by right.
    - intros c' [?|?]; apply Hs; [by left|by right;right].
    - intros s Hin. destruct (Hsd s Hin) as [?|[->|?]%elem_of_cons]; auto.
    - intros c1 c2 H1 H2 H3.
      destruct (Hcl c1 c2 H1 H2 H3) as [?|[->|?]%elem_of_cons]; auto. }
  assert (st_pixels st !! c = pixels img !! c) as Hcur.
  { rewrite Hp. rewrite bool_decide_eq_false_2; [done|].
    rewrite elem_of_removed_set. tauto. }
  rewrite Hcur. destruct (pixels img !! c) as [cur|] eqn:Ecur; [|done].
  rewrite (Hcolors c cur Ecur).
  destruct (matchb c) eqn:Em; simpl.
  - (* a match: overwritten, neighbours queued *)
    intros [= <-]. split; simpl.
    + intros c'. rewrite elem_of_enqueue_neighbors.
      intros [?|[? _]]; [|done]. apply Hq. by right.
    + intros c' [->%elem_of_singleton|?]%elem_of_union; auto.
    + intros c'. rewrite rset_mark_match by done.
      rewrite lookup_insert. case_decide as Hcc.
      * subst c'. rewrite bool_decide_eq_true_2; [done|set_solver].
      * rewrite Hp. apply (f_equal (λ b : bool, if b then _ else _)).
        apply bool_decide_ext. set_solver.
    + rewrite rset_mark_match by done.
      rewrite size_union, size_singleton, Hr; [done|].
      apply disjoint_singleton_l. rewrite elem_of_removed_set. tauto.
    + intros c'. rewrite elem_of_union, elem_of_singleton,
        elem_of_enqueue_neighbors.
      intros [[->|?]|[?|(_ & d & Hd & ->)]] Hm.
      * apply Hs; [right; left|done].
      * apply Hs; [by left|done].
      * apply Hs; [by right; right|done].
      * eapply connected_step; [|by exists d|done].
        apply Hs; [right; left|done].
    + intros s Hin. rewrite elem_of_union, elem_of_singleton,
        elem_of_enqueue_neighbors.
      destruct (Hsd s Hin) as [?|[->|?]%elem_of_cons]; auto.
    + intros c1 c2. rewrite rset_mark_match by done.
      rewrite !elem_of_union, !elem_of_singleton, elem_of_enqueue_neighbors.
      intros [->|H1] H2 H3.
      * destruct H2 as (d & Hd & ->). right. right. split; [done|]. by exists d.
      * destruct (Hcl c1 c2 H1 H2 H3) as [?|[->|?]%elem_of_cons]; auto.
  - (* no match: marked, left as it is *)
    intros [= <-]. split; simpl.
    + intros c' Hc'. apply Hq. by right.
    + intros c' [->%elem_of_singleton|?]%elem_of_union; auto.
    + intros c'. by rewrite rset_mark_nomatch.
    + by rewrite rset_mark_nomatch.
    + intros c'. rewrite elem_of_union, elem_of_singleton.
      intros [[->|?]|?] Hm.
      * congruence.
      * apply Hs; [by left|done].
      * apply Hs; [by right; right|done].
    + intros s Hin. rewrite elem_of_union, elem_of_singleton.
      destruct (Hsd s Hin) as [?|[->|?]%elem_of_cons]; auto.
    + intros c1 c2. rewrite rset_mark_nomatch by done.
      rewrite !elem_of_union, !elem_of_singleton.
      intros H1 H2 H3.
      destruct (Hcl c1 c2 H1 H2 H3) as [?|[->|?]%elem_of_cons]; auto.
Qed.

Lemma bfs_loop_inv fuel st st' :
  inv st → loop fuel st = Some st' → inv st' ∧ st_queue st' = [].
Proof.
  revert st. induction fuel as [|fuel IH]; intros st Hinv; simpl; [done|].
  destruct (step st) as [st1| |] eqn:Es; [|intros [= <-]|done].
  - apply IH. by eapply bfs_step_inv.
  - split; [done|]. unfold bfs_step in Es.
    destruct (st_queue st) as [|c q]; [done|].
    repeat case_match; discriminate.
Qed.

Lemma bfs_loop_fuel_mono fuel fuel' st st' :
  loop fuel st = Some st' → (fuel ≤ fuel')%nat → loop fuel' st = Some st'.
Proof.
  revert fuel' st. induction fuel as [|fuel IH]; intros fuel' st; simpl; [done|].
  intros Hl Hle. destruct fuel' as [|fuel']; [lia|]. simpl.
  destruct (step st) as [st1| |]; [|done|done]. apply IH; [done|lia].
Qed.

Lemma unvisited_decreases V c :
  in_bounds w h c → c ∉ V →
  (size (list_to_set (coords w h) ∖ ({[c]} ∪ V) : gset coord)
   < size (list_to_set (coords w h) ∖ V : gset coord))%nat.
Proof.
  intros Hc Hv. apply subset_size. split; [set_solver|].
  intros Hsub. assert (c ∈ (list_to_set (coords w h) ∖ V : gset coord)) as Hin.
  { apply elem_of_difference. split; [|done].
    apply elem_of_list_to_set. by apply elem_of_coords. }
  apply Hsub in Hin. set_solver.
Qed.

Lemma bfs_step_measure st st' :
  inv st → step st = Continue st' →
  (bfs_measure img st' < bfs_measure img st)%nat.
Proof.
  intros Hinv. unfold bfs_step, bfs_measure.
  destruct (st_queue st) as [|c q] eqn:Eq; [done|].
  assert (in_bounds w h c) as Hc.
  { apply (inv_queue _ _ _ _ _ Hinv). rewrite Eq. left. }
  destruct (in_boundsb w h c); [simpl|done].
  case_bool_decide as Hvis; [intros [= <-]; simpl; lia|].
  pose proof (unvisited_decreases _ _ Hc Hvis) as Hlt.
  destruct (st_pixels st !! c) as [cur|]; [|done].
  destruct (any_within _ _ _); simpl; intros [= <-]; simpl; [|lia].
  pose proof (length_enqueue_neighbors w h (neighbors eight_way) c q).
  pose proof (length_neighbors eight_way). lia.
Qed.

Lemma bfs_loop_terminates fuel st :
  inv st → (bfs_measure img st < fuel)%nat → is_Some (loop fuel st).
Proof.
  revert st. induction fuel as [|fuel IH]; intros st Hinv Hm; [lia|]. simpl.
  destruct (step st) as [st1| |] eqn:Es; [|by eexists|].
  - apply IH; [by eapply bfs_step_inv|].
    pose proof (bfs_step_measure _ _ Hinv Es). lia.
  - by apply bfs_step_no_fault in Es.
Qed.

Lemma bfs_exit_connected st c :
  inv st → st_queue st = [] →
  c ∈ rset (st_visited st) ↔ connected img seeds threshold eight_way c.
Proof.
  intros Hinv Hq. split.
  - intros [Hm Hv]%elem_of_removed_set.
    apply (inv_sound _ _ _ _ _ Hinv); [by left|done].
  - induction 1 as [s Hs Hm|c c' Hc IH Hadj Hm].
    + apply elem_of_removed_set. split; [done|].
      destruct (inv_seeds _ _ _ _ _ Hinv s Hs) as [?|Hin]; [done|].
      rewrite Hq in Hin. by inversion Hin.
    + apply elem_of_removed_set. split; [done|].
      destruct (inv_closed _ _ _ _ _ Hinv c c' IH Hadj) as [?|Hin]; [|done|].
      * by eapply seed_match_in_bounds.
      * rewrite Hq in Hin. by inversion Hin.
Qed.

Lemma bfs_reaches_inv st0 st :
  inv st0 →
  bfs_reaches w h (neighbors eight_way) seed_colors threshold st0 st →
  inv st.
Proof. intros H0. induction 1; [done|]. by eapply bfs_step_inv. Qed.

End bfs.

Lemma init_measure img seeds :
  (bfs_measure img (BfsState (pixels img) ∅ seeds 0%nat)
   < floodfill_fuel img seeds)%nat.
Proof.
  unfold bfs_measure, floodfill_fuel. simpl.
  rewrite difference_empty_L, size_list_to_set by apply NoDup_coords.
  rewrite length_coords. lia.
Qed.

(** What a flood fill from in-bounds seeds returns: the set [R] of the
    connected pixels is overwritten and counted, the rest is kept. *)
Lemma floodfill_run_spec fuel img seeds threshold eight_way :
  wf_image img →
  Forall (in_bounds (width img) (height img)) seeds →
  (floodfill_fuel img seeds ≤ fuel)%nat →
  ∃ (R : gset coord) (px : gmap coord color),
    floodfill_run fuel img seeds threshold eight_way
      = Some (Image (width img) (height img) px, size R) ∧
    (∀ c, c ∈ R ↔ connected img seeds threshold eight_way c) ∧
    (∀ c, px !! c = if bool_decide (c ∈ R) then Some transparent
                    else pixels img !! c).
Proof.
  intros Hwf Hseeds Hfuel. unfold floodfill_run, unique_seed_colors.
  destruct (mapM_getpixel_is_Some img seeds Hwf Hseeds) as [sampled Hsam].
  rewrite Hsam. simpl.
  set (scs := elements (list_to_set sampled : gset color)).
  assert (∀ c cur, pixels img !! c = Some cur →
            any_within scs cur threshold = seed_match img seeds threshold c)
    as Hcolors.
  { intros c cur Hc. unfold scs. rewrite any_within_dedup.
    by eapply sampled_any_within. }
  assert (bfs_inv img seeds threshold eight_way
            (BfsState (pixels img) ∅ seeds 0%nat)) as Hinit
    by (by eapply bfs_inv_init).
  destruct (bfs_loop_terminates img seeds threshold eight_way scs Hwf Hcolors
              fuel _ Hinit) as [st Hst].
  { pose proof (init_measure img seeds). lia. }
  rewrite Hst. simpl.
  destruct (bfs_loop_inv img seeds threshold eight_way scs Hwf Hcolors
              _ _ _ Hinit Hst) as [Hinv Hq].
  exists (removed_set img seeds threshold (st_visited st)), (st_pixels st).
  split_and!.
  - by rewrite (inv_removed _ _ _ _ _ Hinv).
  - intros c. by eapply bfs_exit_connected.
  - apply Hinv.
Qed.

(** ** The global purge loops *)

Lemma for_each_app {A S} (body : S → A → option S) s l1 l2 :
  for_each body s (l1 ++ l2) = for_each body s l1 ≫= λ s', for_each body s' l2.
Proof.
  revert s. induction l1 as [|a l1 IH]; intros s; simpl; [done|].
  destruct (body s a) as [s'|]; simpl; [apply IH|done].
Qed.

(** The two nested [for] loops visit the grid in raster order. *)
Lemma for_each_raster {S} (body : S → coord → option S) s w h :
  for_each (λ acc y, for_each (λ acc x, body acc (x, y)) acc (seqZ 0 w))
           s (seqZ 0 h)
  = for_each body s (coords w h).
Proof.
  unfold coords. generalize (seqZ 0 h) as ys. generalize (seqZ 0 w) as xs.
  intros xs ys. revert s. induction ys as [|y ys IH]; intros s; [done|].
  csimpl. rewrite for_each_app.
  assert (∀ s, for_each (λ acc x, body acc (x, y)) s xs
               = for_each body s (x ← xs; [(x, y)])) as ->.
  { clear. induction xs as [|x xs IH]; intros s; [done|]. csimpl.
    destruct (body s (x, y)); simpl; [apply IH|done]. }
  destruct (for_each body s _) as [s'|]; simpl; [apply IH|done].
Qed.

Lemma purge_pixel_Some scs threshold m n c cur :
  m !! c = Some cur →
  purge_pixel scs threshold (m, n) c
  = Some (if any_within scs cur threshold
          then (<[c := transparent]> m, S n) else (m, n)).
Proof.
  intros Hc. unfold purge_pixel. simpl. rewrite Hc. simpl.
  by destruct (any_within _ _ _).
Qed.

Lemma purge_list_spec img seeds threshold scs l m n :
  (∀ c cur, pixels img !! c = Some cur →
            any_within scs cur threshold = seed_match img seeds threshold c) →
  NoDup l →
  (∀ c, c ∈ l → is_Some (pixels img !! c) ∧ m !! c = pixels img !! c) →
  ∃ m',
    for_each (purge_pixel scs threshold) (m, n) l
      = Some (m', (n + length (filter (λ c, seed_match img seeds threshold c = true) l))%nat) ∧
    ∀ c, m' !! c =
         if bool_decide (c ∈ l) && seed_match img seeds threshold c
         then Some transparent else m !! c.
Proof.
  intros Hcolors. revert m n.
  induction l as [|c l IH]; intros m n Hnd Hl.
  - exists m. split; [simpl; f_equal; f_equal; lia|]. intros c.
    rewrite bool_decide_eq_false_2; [done|]. by inversion 1.
  - apply NoDup_cons in Hnd as [Hc Hnd].
    destruct (Hl c) as [[cur Hcur] Hm]; [left|].
    cbn [for_each]. rewrite (purge_pixel_Some _ _ _ _ _ cur) by congruence.
    simpl.
    rewrite (Hcolors c cur Hcur). rewrite filter_cons.
    destruct (seed_match img seeds threshold c) eqn:Em.
    + destruct (IH (<[c := transparent]> m) (S n) Hnd) as (m' & Hrun & Hm').
      { intros c' Hc'. destruct (Hl c') as [? ?]; [by right|].
        split; [done|]. rewrite lookup_insert_ne; [done|]. by intros ->. }
      exists m'. rewrite decide_True by done. simpl. split.
      * rewrite Hrun. f_equal. f_equal. lia.
      * intros c'. rewrite Hm'. destruct (decide (c' = c)) as [->|Hne].
        -- rewrite (bool_decide_eq_false_2 (c ∈ l)) by done.
           rewrite (bool_decide_eq_true_2 (c ∈ c :: l)) by left.
           simpl. by rewrite Em, lookup_insert_eq.
        -- rewrite lookup_insert_ne by done.
           rewrite (bool_decide_ext (c' ∈ c :: l) (c' ∈ l)); [done|].
           rewrite elem_of_cons. naive_solver.
    + destruct (IH m n Hnd) as (m' & Hrun & Hm').
      { intros c' Hc'. apply Hl. by right. }
      exists m'. rewrite decide_False by congruence. split; [done|].
      intros c'. rewrite Hm'. destruct (decide (c' = c)) as [->|Hne].
      * by rewrite Em, !andb_false_r.
      * rewrite (bool_decide_ext (c' ∈ c :: l) (c' ∈ l)); [done|].
        rewrite elem_of_cons. naive_solver.
Qed.

(** What a global purge with in-bounds seeds returns: every matching pixel
    of the grid is overwritten and counted, the rest is kept. *)
Lemma global_purge_spec img seeds threshold :
  wf_image img →
  Forall (in_bounds (width img) (height img)) seeds →
  ∃ px : gmap coord color,
    global_purge img seeds threshold
      = Some (Image (width img) (height img) px,
              length (matching_pixels img seeds threshold)) ∧
    ∀ c, px !! c = if seed_match img seeds threshold c then Some transparent
                   else pixels img !! c.
Proof.
  intros Hwf Hseeds. unfold global_purge.
  destruct (mapM_getpixel_is_Some img seeds Hwf Hseeds) as [sampled Hsam].
  rewrite Hsam. simpl. rewrite for_each_raster.
  destruct (purge_list_spec img seeds threshold sampled
              (coords (width img) (height img)) (pixels img) 0%nat)
    as (px & Hrun & Hpx).
  - intros c cur Hc. by eapply sampled_any_within.
  - apply NoDup_coords.
  - intros c Hc%elem_of_coords. split; [by apply Hwf|done].
  - rewrite Hrun. simpl. exists px. split; [done|].
    intros c. rewrite Hpx.
    destruct (seed_match img seeds threshold c) eqn:Em;
      [|by rewrite andb_false_r].
    rewrite bool_decide_eq_true_2; [done|].
    apply elem_of_coords. by eapply seed_match_in_bounds.
Qed.

(** ** The removal engine: what is removed *)

Lemma connected_match img seeds threshold eight_way c :
  connected img seeds threshold eight_way c →
  seed_match img seeds threshold c = true.
Proof. by destruct 1. Qed.

(** C1: a flood fill from a non-empty list of in-bounds seeds overwrites with
    (0,0,0,0) exactly the pixels whose original color matches a seed color
    and that a chain of adjacent matching pixels links to a seed; every other
    pixel, matching or not, keeps its value. *)
Theorem floodfill_removes_exactly_connected img seeds threshold eight_way :
  wf_image img →
  seeds ≠ [] →
  Forall (in_bounds (width img) (height img)) seeds →
  ∃ img' n,
    floodfill_remove img seeds threshold eight_way = Some (img', n) ∧
    ∀ c,
      (seed_match img seeds threshold c = true ∧
       connected img seeds threshold eight_way c →
       pixels img' !! c = Some transparent) ∧
      (¬ (seed_match img seeds threshold c = true ∧
          connected img seeds threshold eight_way c) →
       pixels img' !! c = pixels img !! c).
Proof.
  intros Hwf _ Hseeds.
  destruct (floodfill_run_spec (floodfill_fuel img seeds) img seeds threshold
              eight_way Hwf Hseeds) as (R & px & Hrun & HR & Hpx); [done|].
  eexists _, _. split; [exact Hrun|]. intros c. simpl. rewrite Hpx. split.
  - intros [_ Hc%HR]. by rewrite bool_decide_eq_true_2.
  - intros Hn. rewrite bool_decide_eq_false_2; [done|].
    intros Hc%HR. apply Hn. split; [|done]. by eapply connected_match.
Qed.

Lemma floodfill_removes_exactly_connected_witness :
  ∃ img' n,
    floodfill_remove island_image island_seeds 10 false = Some (img', n) ∧
    ∀ c,
      (seed_match island_image island_seeds 10 c = true ∧
       connected island_image island_seeds 10 false c →
       pixels img' !! c = Some transparent) ∧
      (¬ (seed_match island_image island_seeds 10 c = true ∧
          connected island_image island_seeds 10 false c) →
       pixels img' !! c = pixels island_image !! c).
Proof.
  apply (floodfill_removes_exactly_connected island_image island_seeds 10 false).
  - apply wf_imageb_spec. vm_compute. reflexivity.
  - discriminate.
  - repeat constructor; simpl; lia.
Defined.

(** The island of [island_image] survives a flood fill from the first
    pixel, with 4 or 8 neighbours. *)
Example floodfill_keeps_island :
  (λ r, (rows_of_image r.1, r.2))
    <$> floodfill_remove island_image island_seeds 10 false
  = Some ([[Some transparent; Some blue; Some red]], 1%nat) ∧
  (λ r, (rows_of_image r.1, r.2))
    <$> floodfill_remove island_image island_seeds 10 true
  = Some ([[Some transparent; Some blue; Some red]], 1%nat).
Proof. split; vm_compute; reflexivity. Qed.

(** A diagonal neighbour is reached with 8 neighbours only. *)
Example floodfill_diagonal :
  let img := image_of_rows 2 2 [[red; blue]; [blue; red]] in
  (λ r, (rows_of_image r.1, r.2)) <$> floodfill_remove img island_seeds 0 false
  = Some ([[Some transparent; Some blue]; [Some blue; Some red]], 1%nat) ∧
  (λ r, (rows_of_image r.1, r.2)) <$> floodfill_remove img island_seeds 0 true
  = Some ([[Some transparent; Some blue]; [Some blue; Some transparent]], 2%nat).
Proof. split; vm_compute; reflexivity. Qed.

(** C2: a global purge with a non-empty list of in-bounds seeds overwrites
    with (0,0,0,0) every pixel whose color is within the threshold of a color
    sampled at a seed, wherever it lies; its count is the number of these
    pixels; every other pixel keeps its value. *)
Theorem global_purge_removes_all_matching img seeds threshold :
  wf_image img →
  seeds ≠ [] →
  Forall (in_bounds (width img) (height img)) seeds →
  ∃ img' n,
    global_purge img seeds threshold = Some (img', n) ∧
    n = length (matching_pixels img seeds threshold) ∧
    ∀ c,
      (seed_match img seeds threshold c = true →
       pixels img' !! c = Some transparent) ∧
      (seed_match img seeds threshold c = false →
       pixels img' !! c = pixels img !! c).
Proof.
  intros Hwf _ Hseeds.
  destruct (global_purge_spec img seeds threshold Hwf Hseeds) as (px & Hrun & Hpx).
  eexists _, _. split; [exact Hrun|]. split; [done|].
  intros c. simpl. rewrite Hpx. by split; intros ->.
Qed.

Lemma global_purge_removes_all_matching_witness :
  ∃ img' n,
    global_purge island_image island_seeds 10 = Some (img', n) ∧
    n = length (matching_pixels island_image island_seeds 10) ∧
    ∀ c,
      (seed_match island_image island_seeds 10 c = true →
       pixels img' !! c = Some transparent) ∧
      (seed_match island_image island_seeds 10 c = false →
       pixels img' !! c = pixels island_image !! c).
Proof.
  apply (global_purge_removes_all_matching island_image island_seeds 10).
  - apply wf_imageb_spec. vm_compute. reflexivity.
  - discriminate.
  - repeat constructor; simpl; lia.
Defined.

(** The global purge removes the island of [island_image] too. *)
Example global_purge_removes_island :
  (λ r, (rows_of_image r.1, r.2)) <$> global_purge island_image island_seeds 10
  = Some ([[Some transparent; Some blue; Some transparent]], 2%nat).
Proof. vm_compute. reflexivity. Qed.

Lemma NoDup_matching_pixels img seeds threshold :
  NoDup (matching_pixels img seeds threshold).
Proof. apply NoDup_filter, NoDup_coords. Qed.

Lemma elem_of_matching_pixels img seeds threshold c :
  wf_image img →
  c ∈ matching_pixels img seeds threshold ↔ seed_match img seeds threshold c = true.
Proof.
  intros Hwf. unfold matching_pixels. rewrite list_elem_of_filter, elem_of_coords.
  split; [tauto|]. intros Hm. split; [done|]. by eapply seed_match_in_bounds.
Qed.

(** C3: on the same buffer, seeds and threshold the count of the global
    purge is at least the count of the flood fill, and the two are equal when
    every pixel that matches a seed color is connected to a seed through
    matching pixels. *)
Theorem purge_count_ge_floodfill_count img seeds threshold eight_way :
  wf_image img →
  seeds ≠ [] →
  Forall (in_bounds (width img) (height img)) seeds →
  ∃ img_f n_f img_g n_g,
    floodfill_remove img seeds threshold eight_way = Some (img_f, n_f) ∧
    global_purge img seeds threshold = Some (img_g, n_g) ∧
    (n_f ≤ n_g)%nat ∧
    ((∀ c, seed_match img seeds threshold c = true →
           connected img seeds threshold eight_way c) →
     n_f = n_g).
Proof.
  intros Hwf _ Hseeds.
  destruct (floodfill_run_spec (floodfill_fuel img seeds) img seeds threshold
              eight_way Hwf Hseeds) as (R & px & Hrun & HR & _); [done|].
  destruct (global_purge_spec img seeds threshold Hwf Hseeds) as (px' & Hrun' & _).
  eexists _, _, _, _. split; [exact Hrun|]. split; [exact Hrun'|].
  rewrite <- (size_list_to_set (C:=gset coord) (matching_pixels img seeds threshold))
    by apply NoDup_matching_pixels.
  split.
  - apply subseteq_size. intros c Hc%HR. apply elem_of_list_to_set.
    apply elem_of_matching_pixels; [done|]. by eapply connected_match.
  - intros Hall. f_equal. apply set_eq. intros c.
    rewrite elem_of_list_to_set, elem_of_matching_pixels, HR by done.
    split; [by apply connected_match|apply Hall].
Qed.

Lemma purge_count_ge_floodfill_count_witness :
  ∃ img_f n_f img_g n_g,
    floodfill_remove island_image island_seeds 10 false = Some (img_f, n_f) ∧
    global_purge island_image island_seeds 10 = Some (img_g, n_g) ∧
    (n_f ≤ n_g)%nat ∧
    ((∀ c, seed_match island_image island_seeds 10 c = true →
           connected island_image island_seeds 10 false c) →
     n_f = n_g).
Proof.
  apply (purge_count_ge_floodfill_count island_image island_seeds 10 false).
  - apply wf_imageb_spec. vm_compute. reflexivity.
  - discriminate.
  - repeat constructor; simpl; lia.
Defined.

(** ** The removal engine: termination *)

Lemma bfs_step_visited w h nbrs scs threshold st st' :
  bfs_step w h nbrs scs threshold st = Continue st' →
  st_visited st' = st_visited st ∨
  ∃ c, (c ∉ st_visited st) ∧ st_visited st' = {[c]} ∪ st_visited st.
Proof.
  unfold bfs_step. destruct (st_queue st) as [|c q]; [done|].
  destruct (in_boundsb w h c); [simpl|done].
  case_bool_decide as Hv; [intros [= <-]; by left|].
  destruct (st_pixels st !! c) as [cur|]; [|done].
  destruct (any_within _ _ _); simpl; intros [= <-]; right; by exists c.
Qed.

Lemma floodfill_run_fuel_mono fuel fuel' img seeds threshold eight_way r :
  floodfill_run fuel img seeds threshold eight_way = Some r →
  (fuel ≤ fuel')%nat →
  floodfill_run fuel' img seeds threshold eight_way = Some r.
Proof.
  unfold floodfill_run. intros Hrun Hle.
  destruct (unique_seed_colors img seeds) as [scs|]; [|done].
  revert Hrun. cbn [mbind option_bind].
  destruct (bfs_loop (width img) (height img) (neighbors eight_way) scs
              threshold fuel (BfsState (pixels img) ∅ seeds 0%nat))
    as [st|] eqn:El; [|done].
  eapply bfs_loop_fuel_mono in El; [|exact Hle]. by rewrite El.
Qed.

(** C7: the breadth-first loop of a flood fill from in-bounds seeds runs to
    completion. The call returns, and returns the same with any larger
    iteration budget; in every loop state that is met the queue holds
    in-bounds coordinates only and the iteration does not fail; every
    iteration decreases the variant and marks at most one pixel, which was
    unmarked before. *)
Theorem floodfill_terminates img seeds threshold eight_way :
  wf_image img →
  Forall (in_bounds (width img) (height img)) seeds →
  ∃ seed_colors result,
    unique_seed_colors img seeds = Some seed_colors ∧
    floodfill_remove img seeds threshold eight_way = Some result ∧
    (∀ fuel, (floodfill_fuel img seeds ≤ fuel)%nat →
       floodfill_run fuel img seeds threshold eight_way = Some result) ∧
    ∀ st,
      bfs_reaches (width img) (height img) (neighbors eight_way) seed_colors
        threshold (BfsState (pixels img) ∅ seeds 0%nat) st →
      Forall (in_bounds (width img) (height img)) (st_queue st) ∧
      bfs_step (width img) (height img) (neighbors eight_way) seed_colors
        threshold st ≠ Fault ∧
      ∀ st',
        bfs_step (width img) (height img) (neighbors eight_way) seed_colors
          threshold st = Continue st' →
        (bfs_measure img st' < bfs_measure img st)%nat ∧
        (st_visited st' = st_visited st ∨
         ∃ c, (c ∉ st_visited st) ∧ st_visited st' = {[c]} ∪ st_visited st).
Proof.
  intros Hwf Hseeds.
  destruct (mapM_getpixel_is_Some img seeds Hwf Hseeds) as [sampled Hsam].
  set (scs := elements (list_to_set sampled : gset color)).
  assert (unique_seed_colors img seeds = Some scs) as Hscs.
  { unfold unique_seed_colors. by rewrite Hsam. }
  assert (∀ c cur, pixels img !! c = Some cur →
            any_within scs cur threshold = seed_match img seeds threshold c)
    as Hcolors.
  { intros c cur Hc. by eapply unique_any_within. }
  destruct (floodfill_run_spec (floodfill_fuel img seeds) img seeds threshold
              eight_way Hwf Hseeds) as (R & px & Hrun & _); [done|].
  exists scs, (Image (width img) (height img) px, size R).
  split; [done|]. split; [done|]. split.
  - intros fuel Hfuel. by eapply floodfill_run_fuel_mono.
  - intros st Hst.
    assert (bfs_inv img seeds threshold eight_way st) as Hinv.
    { eapply bfs_reaches_inv; [done..| |done]. by eapply bfs_inv_init. }
    split; [|split].
    + apply Forall_forall. apply Hinv.
    + by eapply bfs_step_no_fault.
    + intros st' Hstep. split.
      * by eapply bfs_step_measure.
      * by eapply bfs_step_visited.
Qed.

Lemma floodfill_terminates_witness :
  ∃ seed_colors result,
    unique_seed_colors island_image island_seeds = Some seed_colors ∧
    floodfill_remove island_image island_seeds 10 true = Some result ∧
    (∀ fuel, (floodfill_fuel island_image island_seeds ≤ fuel)%nat →
       floodfill_run fuel island_image island_seeds 10 true = Some result) ∧
    ∀ st,
      bfs_reaches (width island_image) (height island_image) (neighbors true)
        seed_colors 10 (BfsState (pixels island_image) ∅ island_seeds 0%nat) st →
      Forall (in_bounds (width island_image) (height island_image)) (st_queue st) ∧
      bfs_step (width island_image) (height island_image) (neighbors true)
        seed_colors 10 st ≠ Fault ∧
      ∀ st',
        bfs_step (width island_image) (height island_image) (neighbors true)
          seed_colors 10 st = Continue st' →
        (bfs_measure island_image st' < bfs_measure island_image st)%nat ∧
        (st_visited st' = st_visited st ∨
         ∃ c, (c ∉ st_visited st) ∧ st_visited st' = {[c]} ∪ st_visited st).
Proof.
  apply (floodfill_terminates island_image island_seeds 10 true).
  - apply wf_imageb_spec. vm_compute. reflexivity.
  - repeat constructor; simpl; lia.
Defined.

(** ** The removal engine: frame and counter *)

Lemma size_filter_split (P : coord → Prop) `{!∀ c, Decision (P c)} (X : gset coord) :
  size X = (size (filter P X) + size (filter (λ c, ¬ P c) X))%nat.
Proof.
  rewrite <- size_union.
  - f_equal. apply set_eq. intros c. rewrite elem_of_union, !elem_of_filter.
    destruct (decide (P c)); tauto.
  - intros c. rewrite !elem_of_filter. tauto.
Qed.

(** The counter of a removal is the number of pixels whose value changed
    plus the number of overwritten pixels that were (0,0,0,0) before. *)
Lemma overwritten_count (img : image) (px : gmap coord color) (W : gset coord) :
  wf_image img →
  (∀ c, c ∈ W → in_bounds (width img) (height img) c) →
  (∀ c, px !! c = if bool_decide (c ∈ W) then Some transparent
                  else pixels img !! c) →
  size W =
    (length (changed_pixels img (Image (width img) (height img) px))
     + size (filter (λ c, pixels img !! c = Some transparent) W))%nat.
Proof.
  intros Hwf HW Hpx.
  rewrite (size_filter_split (λ c, pixels img !! c = Some transparent) W).
  rewrite Nat.add_comm. f_equal.
  rewrite <- (size_list_to_set (C:=gset coord)) by apply NoDup_filter, NoDup_coords.
  f_equal. apply set_eq. intros c.
  unfold changed_pixels. simpl.
  rewrite elem_of_filter, elem_of_list_to_set, list_elem_of_filter,
    elem_of_coords, Hpx.
  case_bool_decide as Hc.
  - split; [intros [Hne _]; split; [congruence|auto]|].
    intros [Hne _]. split; [congruence|done].
  - split; [tauto|]. intros [Hne _]. done.
Qed.

(** C9: a flood fill or a global purge from in-bounds seeds keeps the width
    and the height; every pixel of the result has its original value or is
    (0,0,0,0); the counter is the number of overwritten pixels, the set [W],
    which is the number of pixels whose value changed plus the number of
    overwritten pixels that were (0,0,0,0) already. *)
Theorem removal_frame_and_count img seeds threshold eight_way :
  wf_image img →
  Forall (in_bounds (width img) (height img)) seeds →
  (∃ img' n (W : gset coord),
     floodfill_remove img seeds threshold eight_way = Some (img', n) ∧
     width img' = width img ∧ height img' = height img ∧
     (∀ c, pixels img' !! c = pixels img !! c ∨
           pixels img' !! c = Some transparent) ∧
     (∀ c, c ∈ W ↔ connected img seeds threshold eight_way c) ∧
     (∀ c, pixels img' !! c = if bool_decide (c ∈ W) then Some transparent
                              else pixels img !! c) ∧
     n = size W ∧
     n = (length (changed_pixels img img')
          + size (filter (λ c, pixels img !! c = Some transparent) W))%nat) ∧
  (∃ img' n (W : gset coord),
     global_purge img seeds threshold = Some (img', n) ∧
     width img' = width img ∧ height img' = height img ∧
     (∀ c, pixels img' !! c = pixels img !! c ∨
           pixels img' !! c = Some transparent) ∧
     (∀ c, c ∈ W ↔ seed_match img seeds threshold c = true) ∧
     (∀ c, pixels img' !! c = if bool_decide (c ∈ W) then Some transparent
                              else pixels img !! c) ∧
     n = size W ∧
     n = (length (changed_pixels img img')
          + size (filter (λ c, pixels img !! c = Some transparent) W))%nat).
Proof.
  intros Hwf Hseeds. split.
  - destruct (floodfill_run_spec (floodfill_fuel img seeds) img seeds threshold
                eight_way Hwf Hseeds) as (R & px & Hrun & HR & Hpx); [done|].
    eexists _, _, R. split; [exact Hrun|]. simpl. split_and!; try done.
    + intros c. rewrite Hpx. case_bool_decide; auto.
    + apply overwritten_count; [done| |done].
      intros c Hc%HR. eapply seed_match_in_bounds; [done|].
      by eapply connected_match.
  - destruct (global_purge_spec img seeds threshold Hwf Hseeds)
      as (px & Hrun & Hpx).
    assert (∀ c, c ∈ (list_to_set (matching_pixels img seeds threshold) : gset coord)
                 ↔ seed_match img seeds threshold c = true) as HW.
    { intros c. by rewrite elem_of_list_to_set, elem_of_matching_pixels. }
    assert (∀ c, px !! c =
              if bool_decide (c ∈ (list_to_set (matching_pixels img seeds threshold)
                                   : gset coord))
              then Some transparent else pixels img !! c) as Hpx'.
    { intros c. rewrite Hpx.
      destruct (seed_match img seeds threshold c) eqn:Em.
      - rewrite bool_decide_eq_true_2; [done|]. by apply HW.
      - rewrite bool_decide_eq_false_2; [done|]. rewrite HW. congruence. }
    eexists _, _, (list_to_set (matching_pixels img seeds threshold)).
    split; [exact Hrun|]. simpl. split_and!; try done.
    + intros c. rewrite Hpx. destruct (seed_match _ _ _ _); auto.
    + by rewrite size_list_to_set by apply NoDup_matching_pixels.
    + rewrite <- (size_list_to_set (C:=gset coord)
                    (matching_pixels img seeds threshold))
        by apply NoDup_matching_pixels.
      apply overwritten_count; [done| |done].
      intros c Hc%HW. by eapply seed_match_in_bounds.
Qed.

Lemma removal_frame_and_count_witness :
  (∃ img' n (W : gset coord),
     floodfill_remove island_image island_seeds 10 false = Some (img', n) ∧
     width img' = width island_image ∧ height img' = height island_image ∧
     (∀ c, pixels img' !! c = pixels island_image !! c ∨
           pixels img' !! c = Some transparent) ∧
     (∀ c, c ∈ W ↔ connected island_image island_seeds 10 false c) ∧
     (∀ c, pixels img' !! c = if bool_decide (c ∈ W) then Some transparent
                              else pixels island_image !! c) ∧
     n = size W ∧
     n = (length (changed_pixels island_image img')
          + size (filter (λ c, pixels island_image !! c = Some transparent) W))%nat) ∧
  (∃ img' n (W : gset coord),
     global_purge island_image island_seeds 10 = Some (img', n) ∧
     width img' = width island_image ∧ height img' = height island_image ∧
     (∀ c, pixels img' !! c = pixels island_image !! c ∨
           pixels img' !! c = Some transparent) ∧
     (∀ c, c ∈ W ↔ seed_match island_image island_seeds 10 c = true) ∧
     (∀ c, pixels img' !! c = if bool_decide (c ∈ W) then Some transparent
                              else pixels island_image !! c) ∧
     n = size W ∧
     n = (length (changed_pixels island_image img')
          + size (filter (λ c, pixels island_image !! c = Some transparent) W))%nat).
Proof.
  apply (removal_frame_and_count island_image island_seeds 10 false).
  - apply wf_imageb_spec. vm_compute. reflexivity.
  - repeat constructor; simpl; lia.
Defined.

(** A buffer that is fully transparent already: nothing changes, yet both
    counters count every pixel. *)
Example already_transparent_is_counted :
  let img := image_of_rows 2 1 [[transparent; transparent]] in
  floodfill_remove img island_seeds 0 false = Some (img, 2%nat) ∧
  global_purge img island_seeds 0 = Some (img, 2%nat).
Proof. split; vm_compute; reflexivity. Qed.

(** ** The removal engine: an empty seed list *)

Lemma seed_match_no_seeds img threshold c : seed_match img [] threshold c = false.
Proof. unfold seed_match. by destruct (pixels img !! c). Qed.

(** C10: with an empty seed list the flood fill and the global purge both
    return, with the buffer as it was and a count of 0. *)
Theorem empty_seeds_remove_nothing img threshold eight_way :
  wf_image img →
  floodfill_remove img [] threshold eight_way = Some (img, 0%nat) ∧
  global_purge img [] threshold = Some (img, 0%nat).
Proof.
  intros Hwf. split.
  - destruct img as [w h px]. reflexivity.
  - destruct (global_purge_spec img [] threshold Hwf) as (px & Hrun & Hpx);
      [constructor|].
    rewrite Hrun. f_equal. f_equal.
    + destruct img as [w h px0]. simpl in *. f_equal. apply map_eq. intros c.
      by rewrite Hpx, seed_match_no_seeds.
    + unfold matching_pixels.
      induction (coords (width img) (height img)) as [|c l IH]; [done|].
      rewrite filter_cons, decide_False; [done|].
      by rewrite seed_match_no_seeds.
Qed.

Lemma empty_seeds_remove_nothing_witness :
  floodfill_remove island_image [] 10 true = Some (island_image, 0%nat) ∧
  global_purge island_image [] 10 = Some (island_image, 0%nat).
Proof.
  apply (empty_seeds_remove_nothing island_image 10 true).
  apply wf_imageb_spec. vm_compute. reflexivity.
Defined.

(** ** The removal engine: the threshold comparison *)

Lemma color_distance_sq_nonneg c1 c2 : 0 <= color_distance_sq c1 c2.
Proof.
  destruct c1 as [[[r1 g1] b1] a1], c2 as [[[r2 g2] b2] a2].
  cbv beta iota delta [color_distance_sq].
  assert (Z.Even 2) as He by (exists 1; lia).
  pose proof (Z.pow_even_nonneg (r1 - r2) 2 He).
  pose proof (Z.pow_even_nonneg (g1 - g2) 2 He).
  pose proof (Z.pow_even_nonneg (b1 - b2) 2 He).
  clear He. lia.
Qed.

Lemma sqrt_IZR_le d t :
  0 <= d → (sqrt (IZR d) <= IZR t)%R ↔ 0 <= t ∧ d <= t * t.
Proof.
  intros Hd. split.
  - intros H. assert (0 <= t) as Ht.
    { apply le_IZR. eapply Rle_trans; [apply sqrt_pos|exact H]. }
    split; [done|]. apply le_IZR. rewrite mult_IZR.
    rewrite <- (sqrt_sqrt (IZR d)) by (apply IZR_le; lia).
    apply Rmult_le_compat; try apply sqrt_pos; done.
  - intros [Ht Hle]. rewrite <- (sqrt_square (IZR t)) by (apply IZR_le; lia).
    apply sqrt_le_1_alt. rewrite <- mult_IZR. by apply IZR_le.
Qed.

(** The test on squares is the comparison of the distance with the
    threshold. *)
Lemma within_threshold_spec sc cur threshold :
  within_threshold sc cur threshold = true ↔
  (color_distance sc cur <= IZR threshold)%R.
Proof.
  unfold within_threshold, color_distance.
  rewrite sqrt_IZR_le by apply color_distance_sq_nonneg.
  rewrite andb_true_iff, Z.leb_le, Z.leb_le. done.
Qed.

Lemma color_distance_exact c1 c2 t :
  0 <= t → color_distance_sq c1 c2 = t * t → color_distance c1 c2 = IZR t.
Proof.
  intros Ht Hd. unfold color_distance. rewrite Hd, mult_IZR.
  apply sqrt_square. apply IZR_le. lia.
Qed.

Lemma at_threshold_match img seeds threshold c :
  at_threshold img seeds threshold c → seed_match img seeds threshold c = true.
Proof.
  intros (cur & s & sc & Hc & Hs & Hsc & Hd). apply seed_match_spec.
  exists cur, s, sc. split_and!; try done.
  apply within_threshold_spec. rewrite Hd. apply Rle_refl.
Qed.

Lemma beyond_threshold_no_match img seeds threshold c :
  beyond_threshold img seeds threshold c →
  seed_match img seeds threshold c = false.
Proof.
  intros (cur & Hc & Hall). apply not_true_is_false.
  intros (cur' & s & sc & Hc' & Hs & Hsc & Hw)%seed_match_spec.
  assert (cur' = cur) as -> by congruence.
  apply within_threshold_spec in Hw. specialize (Hall s sc Hs Hsc).
  by apply Rlt_not_le in Hall.
Qed.

(** C6, as stated, fails for the flood fill: in [gap_image] the third pixel
    lies at distance exactly 5 from the seed color, and a flood fill with
    threshold 5 from the first pixel does not remove it, because the white
    pixel between them stops the traversal. *)
Lemma floodfill_at_threshold_counterexample :
  ¬ (at_threshold gap_image island_seeds 5 (2, 0) →
     ∃ img' n,
       floodfill_remove gap_image island_seeds 5 false = Some (img', n) ∧
       pixels img' !! (2, 0) = Some transparent).
Proof.
  intros Hclaim. destruct Hclaim as (img' & n & Hrun & Hpx).
  - exists (3, 4, 0, 255), (0, 0), black. split_and!.
    + vm_compute. reflexivity.
    + left.
    + vm_compute. reflexivity.
    + apply color_distance_exact; [lia|]. vm_compute. reflexivity.
  - assert (floodfill_remove gap_image island_seeds 5 false
            = Some (image_of_rows 3 1 [[transparent; white; (3, 4, 0, 255)]],
                    1%nat)) as Hrun' by (vm_compute; reflexivity).
    rewrite Hrun' in Hrun. injection Hrun as <- <-.
    vm_compute in Hpx. discriminate.
Qed.

(** C6, amended: the comparison with the threshold is inclusive. A pixel at
    distance exactly the threshold from a seed color is removed by the
    global purge, and by the flood fill when it is a seed or adjacent to a
    pixel connected to a seed; a pixel strictly beyond the threshold from
    every seed color is removed by neither. *)
Theorem threshold_comparison_inclusive img seeds threshold eight_way :
  wf_image img →
  Forall (in_bounds (width img) (height img)) seeds →
  ∃ img_f n_f img_g n_g,
    floodfill_remove img seeds threshold eight_way = Some (img_f, n_f) ∧
    global_purge img seeds threshold = Some (img_g, n_g) ∧
    ∀ c,
      (at_threshold img seeds threshold c →
       pixels img_g !! c = Some transparent ∧
       (c ∈ seeds ∨
        (∃ c0, connected img seeds threshold eight_way c0 ∧
               adjacent eight_way c0 c) →
        pixels img_f !! c = Some transparent)) ∧
      (beyond_threshold img seeds threshold c →
       pixels img_f !! c = pixels img !! c ∧
       pixels img_g !! c = pixels img !! c).
Proof.
  intros Hwf Hseeds.
  destruct (floodfill_run_spec (floodfill_fuel img seeds) img seeds threshold
              eight_way Hwf Hseeds) as (R & px & Hrun & HR & Hpx); [done|].
  destruct (global_purge_spec img seeds threshold Hwf Hseeds)
    as (px' & Hrun' & Hpx').
  eexists _, _, _, _. split; [exact Hrun|]. split; [exact Hrun'|].
  intros c. simpl. rewrite Hpx, Hpx'. split.
  - intros Hm%at_threshold_match. rewrite Hm. split; [done|].
    intros Hreach. rewrite bool_decide_eq_true_2; [done|]. apply HR.
    destruct Hreach as [Hs|(c0 & Hc0 & Hadj)].
    + by apply connected_seed.
    + by eapply connected_step.
  - intros Hm%beyond_threshold_no_match. rewrite Hm. split; [|done].
    rewrite bool_decide_eq_false_2; [done|].
    intros Hc%HR%connected_match. congruence.
Qed.

Lemma threshold_comparison_inclusive_witness :
  ∃ img_f n_f img_g n_g,
    floodfill_remove gap_image island_seeds 5 true = Some (img_f, n_f) ∧
    global_purge gap_image island_seeds 5 = Some (img_g, n_g) ∧
    ∀ c,
      (at_threshold gap_image island_seeds 5 c →
       pixels img_g !! c = Some transparent ∧
       (c ∈ island_seeds ∨
        (∃ c0, connected gap_image island_seeds 5 true c0 ∧
               adjacent true c0 c) →
        pixels img_f !! c = Some transparent)) ∧
      (beyond_threshold gap_image island_seeds 5 c →
       pixels img_f !! c = pixels gap_image !! c ∧
       pixels img_g !! c = pixels gap_image !! c).
Proof.
  apply (threshold_comparison_inclusive gap_image island_seeds 5 true).
  - apply wf_imageb_spec. vm_compute. reflexivity.
  - repeat constructor; simpl; lia.
Defined.

(** ** The edge trimmer *)

Lemma foldr_min_le a l x : x ∈ a :: l → foldr Z.min a l <= x.
Proof.
  induction l as [|y l IH]; simpl.
  - intros ->%list_elem_of_singleton. lia.
  - intros [->|[->|?]%elem_of_cons]%elem_of_cons.
    + etrans; [apply Z.le_min_r|]. apply IH. left.
    + apply Z.le_min_l.
    + etrans; [apply Z.le_min_r|]. apply IH. by right.
Qed.

Lemma foldr_min_elem a l : foldr Z.min a l ∈ a :: l.
Proof.
  induction l as [|y l IH]; simpl; [left|].
  destruct (Z.min_spec y (foldr Z.min a l)) as [[_ ->]|[_ ->]].
  - right. left.
  - apply elem_of_cons in IH as [->|?]; [left|by right; right].
Qed.

Lemma foldr_max_ge a l x : x ∈ a :: l → x <= foldr Z.max a l.
Proof.
  induction l as [|y l IH]; simpl.
  - intros ->%list_elem_of_singleton. lia.
  - intros [->|[->|?]%elem_of_cons]%elem_of_cons.
    + etrans; [|apply Z.le_max_r]. apply IH. left.
    + apply Z.le_max_l.
    + etrans; [|apply Z.le_max_r]. apply IH. by right.
Qed.

Lemma foldr_max_elem a l : foldr Z.max a l ∈ a :: l.
Proof.
  induction l as [|y l IH]; simpl; [left|].
  destruct (Z.max_spec y (foldr Z.max a l)) as [[_ ->]|[_ ->]].
  - apply elem_of_cons in IH as [->|?]; [left|by right; right].
  - right. left.
Qed.

Lemma visible_in_bounds img c :
  wf_image img → visible img c = true → in_bounds (width img) (height img) c.
Proof.
  unfold visible. intros Hwf Hv.
  destruct (pixels img !! c) as [p|] eqn:E; [|done]. by eapply wf_lookup_Some.
Qed.

Lemma elem_of_visible_list img c :
  wf_image img →
  c ∈ filter (λ c, visible img c = true) (coords (width img) (height img))
  ↔ visible img c = true.
Proof.
  intros Hwf. rewrite list_elem_of_filter, elem_of_coords. split; [tauto|].
  intros Hv. split; [done|]. by apply visible_in_bounds.
Qed.

Lemma getbbox_None img :
  wf_image img → getbbox img = None ↔ ∀ c, visible img c = false.
Proof.
  intros Hwf. unfold getbbox.
  destruct (filter _ _) as [|c cs] eqn:E.
  - split; [|done]. intros _ c. apply not_true_is_false.
    intros Hv%elem_of_visible_list; [|done]. rewrite E in Hv. by inversion Hv.
  - split; [done|]. intros Hall.
    assert (visible img c = true) as Hv.
    { apply elem_of_visible_list; [done|]. rewrite E. left. }
    by rewrite Hall in Hv.
Qed.

Lemma getbbox_tight img box :
  wf_image img → getbbox img = Some box → tight_box img box.
Proof.
  intros Hwf. unfold getbbox.
  destruct (filter _ _) as [|c cs] eqn:E; [done|]. intros [= <-].
  assert (∀ c', visible img c' = true ↔ c' ∈ c :: cs) as Hvis.
  { intros c'. by rewrite <- E, elem_of_visible_list. }
  assert (∀ c', c' ∈ c :: cs → c'.1 ∈ c.1 :: (fst <$> cs)) as Hfst.
  { intros c' [->|?]%elem_of_cons; [left|right]. by apply list_elem_of_fmap_2. }
  assert (∀ c', c' ∈ c :: cs → c'.2 ∈ c.2 :: (snd <$> cs)) as Hsnd.
  { intros c' [->|?]%elem_of_cons; [left|right]. by apply list_elem_of_fmap_2. }
  assert (∀ x, x ∈ c.1 :: (fst <$> cs) → ∃ c', visible img c' = true ∧ c'.1 = x)
    as Hx.
  { intros x [->|(c' & -> & ?)%list_elem_of_fmap]%elem_of_cons.
    - exists c. split; [apply Hvis; left|done].
    - exists c'. split; [apply Hvis; by right|done]. }
  assert (∀ y, y ∈ c.2 :: (snd <$> cs) → ∃ c', visible img c' = true ∧ c'.2 = y)
    as Hy.
  { intros y [->|(c' & -> & ?)%list_elem_of_fmap]%elem_of_cons.
    - exists c. split; [apply Hvis; left|done].
    - exists c'. split; [apply Hvis; by right|done]. }
  split_and!.
  - intros c' Hc'%Hvis.
    pose proof (foldr_min_le _ _ _ (Hfst c' Hc')).
    pose proof (foldr_max_ge _ _ _ (Hfst c' Hc')).
    pose proof (foldr_min_le _ _ _ (Hsnd c' Hc')).
    pose proof (foldr_max_ge _ _ _ (Hsnd c' Hc')). lia.
  - apply Hx, foldr_min_elem.
  - apply Hy, foldr_min_elem.
  - destruct (Hx _ (foldr_max_elem c.1 (fst <$> cs))) as (c' & ? & ?).
    exists c'. split; [done|lia].
  - destruct (Hy _ (foldr_max_elem c.2 (snd <$> cs))) as (c' & ? & ?).
    exists c'. split; [done|lia].
Qed.

Lemma tight_box_smallest img box box' :
  tight_box img box → encloses img box' →
  let '(l, t, r, b) := box in
  let '(l', t', r', b') := box' in
  l' <= l ∧ t' <= t ∧ r <= r' ∧ b <= b'.
Proof.
  destruct box as [[[l t] r] b], box' as [[[l' t'] r'] b'].
  intros (_ & (c1 & H1 & E1) & (c2 & H2 & E2) & (c3 & H3 & E3) & (c4 & H4 & E4)) Henc.
  apply Henc in H1, H2, H3, H4. lia.
Qed.

Lemma tight_box_unique img box box' :
  tight_box img box → tight_box img box' → box = box'.
Proof.
  intros H1 H2.
  pose proof (tight_box_smallest img box box' H1) as H12.
  pose proof (tight_box_smallest img box' box H2) as H21.
  destruct box as [[[l t] r] b], box' as [[[l' t'] r'] b'].
  destruct H12 as (? & ? & ? & ?); [apply H2|].
  destruct H21 as (? & ? & ? & ?); [apply H1|].
  repeat f_equal; lia.
Qed.

Lemma getbbox_Some img box :
  wf_image img → getbbox img = Some box ↔ tight_box img box.
Proof.
  intros Hwf. split; [by apply getbbox_tight|]. intros Ht.
  destruct (getbbox img) as [box'|] eqn:E.
  - f_equal. eapply tight_box_unique; [|done]. by apply getbbox_tight.
  - destruct box as [[[l t] r] b]. destruct Ht as (_ & (c & Hv & _) & _).
    rewrite getbbox_None in E by done. by rewrite E in Hv.
Qed.

Lemma lookup_list_to_map_graph (f : coord → color) (l : list coord) (c : coord) :
  (list_to_map ((λ c, (c, f c)) <$> l) : gmap coord color) !! c
  = if bool_decide (c ∈ l) then Some (f c) else None.
Proof.
  induction l as [|c' l IH].
  - rewrite fmap_nil, list_to_map_nil, lookup_empty.
    rewrite bool_decide_eq_false_2; [done|]. by inversion 1.
  - rewrite fmap_cons, list_to_map_cons.
    destruct (decide (c = c')) as [->|Hne].
    + rewrite lookup_insert_eq. rewrite bool_decide_eq_true_2; [done|left].
    + rewrite lookup_insert_ne by done. rewrite IH.
      apply (f_equal (λ b : bool, if b then _ else _)).
      apply bool_decide_ext. rewrite elem_of_cons. naive_solver.
Qed.

Lemma lookup_crop img l t r b c :
  pixels (crop img (l, t, r, b)) !! c
  = if bool_decide (in_bounds (r - l) (b - t) c)
    then Some (default transparent (pixels img !! (c.1 + l, c.2 + t)))
    else None.
Proof.
  unfold crop. simpl.
  rewrite (lookup_list_to_map_graph
             (λ c, default transparent (pixels img !! (c.1 + l, c.2 + t)))).
  apply (f_equal (λ b : bool, if b then _ else _)).
  apply bool_decide_ext, elem_of_coords.
Qed.

Lemma wf_crop img box : wf_image (crop img box).
Proof.
  destruct box as [[[l t] r] b]. intros c. rewrite lookup_crop.
  change (width (crop img (l, t, r, b))) with (r - l).
  change (height (crop img (l, t, r, b))) with (b - t).
  case_bool_decide as Hc; split; intros H; try done; by destruct H.
Qed.

Lemma tight_box_in_image img l t r b :
  wf_image img → tight_box img (l, t, r, b) →
  0 <= l < r ∧ r <= width img ∧ 0 <= t < b ∧ b <= height img.
Proof.
  intros Hwf (Henc & (c1 & H1 & E1) & (c2 & H2 & E2) & (c3 & H3 & E3) & (c4 & H4 & E4)).
  pose proof (Henc _ H1). 
  apply (visible_in_bounds _ _ Hwf) in H1, H2, H3, H4.
  unfold in_bounds in *. lia.
Qed.

(** C4: when some pixel has nonzero alpha, the box returned by the trimmer
    contains every such pixel and lies inside every box that does, and the
    returned buffer has the size of the box and holds exactly the pixels
    inside it; a single opaque pixel at (2,3) gives a 1x1 buffer with box
    (2,3,3,4); when every pixel has zero alpha the buffer is returned as it
    is with box (0, 0, width, height). *)
Theorem trim_transparent_bounding_box img :
  wf_image img →
  ((∃ c, visible img c = true) →
   ∃ img' l t r b,
     trim_transparent img = (img', (l, t, r, b)) ∧
     encloses img (l, t, r, b) ∧
     (∀ l' t' r' b', encloses img (l', t', r', b') →
                     l' <= l ∧ t' <= t ∧ r <= r' ∧ b <= b') ∧
     (0 <= l < r ∧ r <= width img ∧ 0 <= t < b ∧ b <= height img) ∧
     width img' = r - l ∧ height img' = b - t ∧ wf_image img' ∧
     ∀ c, in_bounds (r - l) (b - t) c →
          pixels img' !! c = pixels img !! (c.1 + l, c.2 + t)) ∧
  ((∀ c, visible img c = true ↔ c = (2, 3)) →
   ∃ img',
     trim_transparent img = (img', (2, 3, 3, 4)) ∧
     width img' = 1 ∧ height img' = 1 ∧
     pixels img' !! (0, 0) = pixels img !! (2, 3)) ∧
  ((∀ c, visible img c = false) →
   trim_transparent img = (img, (0, 0, width img, height img))).
Proof.
  intros Hwf.
  assert (∀ l t r b c, tight_box img (l, t, r, b) →
            in_bounds (r - l) (b - t) c →
            pixels (crop img (l, t, r, b)) !! c = pixels img !! (c.1 + l, c.2 + t))
    as Hcrop.
  { intros l t r b c Ht Hc. rewrite lookup_crop, bool_decide_eq_true_2 by done.
    pose proof (tight_box_in_image _ _ _ _ _ Hwf Ht).
    destruct (wf_lookup_in_bounds img (c.1 + l, c.2 + t) Hwf) as [p ->]; [|done].
    unfold in_bounds in *. simpl. lia. }
  split_and!.
  - intros [c Hc]. unfold trim_transparent.
    destruct (getbbox img) as [[[[l t] r] b]|] eqn:E.
    + pose proof (getbbox_tight _ _ Hwf E) as Ht.
      exists (crop img (l, t, r, b)), l, t, r, b.
      split; [done|]. split; [apply Ht|]. split; [|split; [|split; [|split; [|split]]]].
      * intros l' t' r' b' Henc.
        apply (tight_box_smallest img (l, t, r, b) (l', t', r', b') Ht Henc).
      * by eapply tight_box_in_image.
      * done.
      * done.
      * apply wf_crop.
      * intros c'. by apply Hcrop.
    + rewrite getbbox_None in E by done. by rewrite E in Hc.
  - intros Hdot. unfold trim_transparent.
    assert (tight_box img (2, 3, 3, 4)) as Ht.
    { split_and!; [intros c ->%Hdot; simpl; lia|..];
        exists (2, 3); (split; [by apply Hdot|done]). }
    pose proof Ht as E. apply getbbox_Some in E; [|done]. rewrite E.
    eexists. split; [done|]. split; [done|]. split; [done|].
    apply (Hcrop 2 3 3 4 (0, 0) Ht). unfold in_bounds. simpl. lia.
  - intros Hnone. unfold trim_transparent.
    by rewrite (proj2 (getbbox_None img Hwf) Hnone).
Qed.

Lemma trim_transparent_bounding_box_witness :
  ((∃ c, visible dot_image c = true) →
   ∃ img' l t r b,
     trim_transparent dot_image = (img', (l, t, r, b)) ∧
     encloses dot_image (l, t, r, b) ∧
     (∀ l' t' r' b', encloses dot_image (l', t', r', b') →
                     l' <= l ∧ t' <= t ∧ r <= r' ∧ b <= b') ∧
     (0 <= l < r ∧ r <= width dot_image ∧ 0 <= t < b ∧ b <= height dot_image) ∧
     width img' = r - l ∧ height img' = b - t ∧ wf_image img' ∧
     ∀ c, in_bounds (r - l) (b - t) c →
          pixels img' !! c = pixels dot_image !! (c.1 + l, c.2 + t)) ∧
  ((∀ c, visible dot_image c = true ↔ c = (2, 3)) →
   ∃ img',
     trim_transparent dot_image = (img', (2, 3, 3, 4)) ∧
     width img' = 1 ∧ height img' = 1 ∧
     pixels img' !! (0, 0) = pixels dot_image !! (2, 3)) ∧
  ((∀ c, visible dot_image c = false) →
   trim_transparent dot_image
   = (dot_image, (0, 0, width dot_image, height dot_image))).
Proof.
  apply (trim_transparent_bounding_box dot_image).
  apply wf_imageb_spec. vm_compute. reflexivity.
Defined.

Example trim_single_pixel :
  (λ r, (rows_of_image r.1, r.2)) (trim_transparent dot_image)
  = ([[Some red]], (2, 3, 3, 4)).
Proof. vm_compute. reflexivity. Qed.

Lemma crop_full img :
  wf_image img → crop img (0, 0, width img, height img) = img.
Proof.
  intros Hwf. destruct img as [w h px]. unfold crop. simpl in *.
  rewrite !Z.sub_0_r. f_equal. apply map_eq. intros c.
  rewrite (lookup_list_to_map_graph
             (λ c, default transparent (px !! (c.1 + 0, c.2 + 0)))).
  rewrite !Z.add_0_r, <- surjective_pairing.
  case_bool_decide as Hc; rewrite elem_of_coords in Hc.
  - apply (Hwf c) in Hc as [p Hp]. simpl in Hp. by rewrite Hp.
  - symmetry. apply eq_None_not_Some. intros Hp. by apply (Hwf c) in Hp.
Qed.

Lemma visible_crop img l t r b c :
  visible (crop img (l, t, r, b)) c = true ↔
  in_bounds (r - l) (b - t) c ∧ visible img (c.1 + l, c.2 + t) = true.
Proof.
  unfold visible. rewrite lookup_crop. case_bool_decide as Hc; [|naive_solver].
  destruct (pixels img !! (c.1 + l, c.2 + t)) as [p|]; simpl; naive_solver.
Qed.

Lemma tight_box_crop img l t r b :
  tight_box img (l, t, r, b) →
  tight_box (crop img (l, t, r, b)) (0, 0, r - l, b - t).
Proof.
  intros (Henc & (c1 & H1 & E1) & (c2 & H2 & E2) & (c3 & H3 & E3) & (c4 & H4 & E4)).
  assert (∀ c, visible img c = true →
            visible (crop img (l, t, r, b)) (c.1 - l, c.2 - t) = true) as Hshift.
  { intros c Hc. apply visible_crop. simpl. pose proof (Henc c Hc).
    split; [unfold in_bounds; simpl; lia|].
    by rewrite !Z.sub_add, <- surjective_pairing. }
  split_and!.
  - intros c [Hc _]%visible_crop. unfold in_bounds in Hc. lia.
  - exists (c1.1 - l, c1.2 - t). split; [by apply Hshift|simpl; lia].
  - exists (c2.1 - l, c2.2 - t). split; [by apply Hshift|simpl; lia].
  - exists (c3.1 - l, c3.2 - t). split; [by apply Hshift|simpl; lia].
  - exists (c4.1 - l, c4.2 - t). split; [by apply Hshift|simpl; lia].
Qed.

(** C8: trimming is idempotent: trimming the buffer returned by the trimmer
    returns that buffer again, with the box (0, 0, width', height') of its
    full extent. *)
Theorem trim_transparent_idempotent img :
  wf_image img →
  trim_transparent (trim_transparent img).1
  = ((trim_transparent img).1,
     (0, 0, width (trim_transparent img).1, height (trim_transparent img).1)).
Proof.
  intros Hwf. destruct (getbbox img) as [[[[l t] r] b]|] eqn:E.
  - assert (trim_transparent img = (crop img (l, t, r, b), (l, t, r, b))) as ->
      by (unfold trim_transparent; by rewrite E).
    cbn [fst]. apply getbbox_tight in E; [|done].
    pose proof (tight_box_crop _ _ _ _ _ E) as Ht.
    apply getbbox_Some in Ht; [|apply wf_crop].
    set (C := crop img (l, t, r, b)) in *.
    change (0, 0, r - l, b - t) with (0, 0, width C, height C) in Ht.
    unfold trim_transparent. rewrite Ht. f_equal. apply crop_full, wf_crop.
  - assert (trim_transparent img = (img, (0, 0, width img, height img))) as ->
      by (unfold trim_transparent; by rewrite E).
    cbn [fst]. unfold trim_transparent. by rewrite E.
Qed.

Lemma trim_transparent_idempotent_witness :
  trim_transparent (trim_transparent dot_image).1
  = ((trim_transparent dot_image).1,
     (0, 0, width (trim_transparent dot_image).1,
            height (trim_transparent dot_image).1)).
Proof.
  apply (trim_transparent_idempotent dot_image).
  apply wf_imageb_spec. vm_compute. reflexivity.
Defined.

(** ** The seed resolver *)

Lemma parse_part_InvalidNumber part max_val :
  parse_part part max_val = Err InvalidNumber ↔ not_numeric (strip part).
Proof.
  unfold parse_part, not_numeric, number_text, _parse_number.
  destruct (ends_with_percent (strip part)).
  - destruct (py_float (removelast (strip part))) as [v|]; cbn [bind_result or_raise negb]; [|done].
    split; [|done].
    destruct (negb _); [done|].
    destruct (int_to_float 100); cbn [bind_result or_raise negb]; [|done].
    by destruct (int_to_float (max_val - 1)).
  - destruct (py_float (strip part)) as [v|]; cbn [bind_result or_raise negb]; [|done].
    split; [|done]. by destruct (negb _).
Qed.

Lemma parse_part_OutOfRange part max_val :
  parse_part part max_val = Err OutOfRange ↔ out_of_range (strip part) max_val.
Proof.
  unfold parse_part, out_of_range, number_text, _parse_number.
  destruct (ends_with_percent (strip part)).
  - destruct (py_float (removelast (strip part))) as [v|]; cbn [bind_result or_raise negb];
      [|split; [done|by intros (? & ? & _)]].
    destruct (int_le_float 0 v && float_le_int v 100) eqn:E; cbn [bind_result or_raise negb].
    + split; [|by intros (? & [= <-] & ?); congruence].
      destruct (int_to_float 100); cbn [bind_result or_raise negb]; [|done].
      by destruct (int_to_float (max_val - 1)).
    + split; [|done]. intros _. by exists v.
  - destruct (py_float (strip part)) as [v|]; cbn [bind_result or_raise negb];
      [|split; [done|by intros (? & ? & _)]].
    destruct (int_le_float 0 v && float_lt_int v max_val) eqn:E; cbn [bind_result or_raise negb].
    + split; [done|]. by intros (? & [= <-] & ?); congruence.
    + split; [|done]. intros _. by exists v.
Qed.

Lemma parse_part_Ok part max_val x :
  parse_part part max_val = Ok x ↔ part_float (strip part) max_val x.
Proof.
  unfold parse_part, part_float, number_text, _parse_number.
  destruct (ends_with_percent (strip part)).
  - destruct (py_float (removelast (strip part))) as [v|]; cbn [bind_result or_raise negb];
      [|split; [done|by intros (? & ? & _)]].
    destruct (int_le_float 0 v && float_le_int v 100) eqn:E; cbn [bind_result or_raise negb].
    + destruct (int_to_float 100) as [hundred|]; cbn [bind_result or_raise negb].
      * destruct (int_to_float (max_val - 1)) as [scale|]; cbn [bind_result or_raise negb].
        -- split.
           ++ intros [= <-]. exists v. split; [done|]. split; [done|].
              by exists hundred, scale.
           ++ intros (v' & [= <-] & _ & h' & s' & [= <-] & [= <-] & ->). done.
        -- split; [done|].
           by intros (v' & _ & _ & h' & s' & _ & ? & _).
      * split; [done|]. by intros (v' & _ & _ & h' & s' & ? & _).
    + split; [done|]. intros (v' & [= <-] & ? & _). congruence.
  - destruct (py_float (strip part)) as [v|]; cbn [bind_result or_raise negb];
      [|split; [done|by intros (? & ? & _)]].
    destruct (int_le_float 0 v && float_lt_int v max_val) eqn:E; cbn [bind_result or_raise negb].
    + split; [intros [= <-]; by exists v|]. by intros (v' & [= <-] & _ & ->).
    + split; [done|]. intros (v' & [= <-] & ? & _). congruence.
Qed.

Lemma parse_part_not_InvalidFormat part max_val :
  parse_part part max_val ≠ Err InvalidFormat.
Proof.
  unfold parse_part, _parse_number.
  destruct (ends_with_percent (strip part)).
  - destruct (py_float _); cbn [bind_result or_raise]; [|done].
    destruct (negb _); [done|].
    destruct (int_to_float 100); cbn [bind_result or_raise]; [|done].
    by destruct (int_to_float (max_val - 1)).
  - destruct (py_float _); cbn [bind_result or_raise]; [|done].
    by destruct (negb _).
Qed.

Lemma parse_seed_two_parts seed_str width height raw0 raw1 :
  split_comma (strip (list_ascii_of_string seed_str)) = [raw0; raw1] →
  parse_seed seed_str width height
  = combine_parts (parse_part raw0 width) (parse_part raw1 height).
Proof. unfold parse_seed. by intros ->. Qed.

Lemma combine_parts_spec rx ry :
  (combine_parts rx ry = Err InvalidNumber ↔
   rx = Err InvalidNumber ∨ ((∃ x, rx = Ok x) ∧ ry = Err InvalidNumber)) ∧
  (combine_parts rx ry = Err OutOfRange ↔
   rx = Err OutOfRange ∨ ((∃ x, rx = Ok x) ∧ ry = Err OutOfRange)) ∧
  (combine_parts rx ry = Err InvalidFormat ↔
   rx = Err InvalidFormat ∨ ((∃ x, rx = Ok x) ∧ ry = Err InvalidFormat)) ∧
  (∀ ix iy, combine_parts rx ry = Ok (ix, iy) ↔
   ∃ x y, rx = Ok x ∧ ry = Ok y ∧
          float_to_int x = Some ix ∧ float_to_int y = Some iy).
Proof.
  assert (∀ (r : result coord) e (P Q : Prop),
            (r = Err e → P ∨ Q) → (P → r = Err e) → (Q → r = Err e) →
            r = Err e ↔ P ∨ Q) as Hiff by (intros; tauto).
  unfold combine_parts.
  destruct rx as [x|ex], ry as [y|ey]; cbn [bind_result].
  - destruct (float_to_int x) as [ix0|] eqn:Ex, (float_to_int y) as [iy0|] eqn:Ey;
      cbn [bind_result or_raise];
      (split_and!;
       [apply Hiff; [done|done|by intros [_ ?]]..|]);
      intros ix iy; (split; [try done|]).
    + intros [= <- <-]. by exists x, y.
    + intros (x' & y' & [= <-] & [= <-] & ? & ?). congruence.
    + intros (x' & y' & [= <-] & [= <-] & ? & ?). congruence.
    + intros (x' & y' & [= <-] & [= <-] & ? & ?). congruence.
    + intros (x' & y' & [= <-] & [= <-] & ? & ?). congruence.
  - split_and!;
      [apply Hiff;
       [intros [= <-]; right; split; [by eexists|done]
       |done
       |by intros [_ [= <-]]]..|].
    intros ix iy. split; [done|]. by intros (x' & y' & _ & ? & _).
  - split_and!;
      [apply Hiff; [intros [= <-]; by left|by intros [= <-]|by intros [[? ?] _]]..|].
    intros ix iy. split; [done|]. by intros (x' & y' & ? & _).
  - split_and!;
      [apply Hiff; [intros [= <-]; by left|by intros [= <-]|by intros [[? ?] _]]..|].
    intros ix iy. split; [done|]. by intros (x' & y' & ? & _).
Qed.

(** C5, as stated, fails: in "200%,abc" the second part is not numeric,
    yet the error is OutOfRange, raised for the first part before the second
    part is looked at. *)
Lemma parse_seed_invalid_number_counterexample :
  ¬ (parse_seed "200%,abc" 10 10 = Err InvalidNumber ↔
     ∃ part, part ∈ seed_parts "200%,abc" ∧ not_numeric part).
Proof.
  intros [_ Hclaim].
  assert (parse_seed "200%,abc" 10 10 = Err OutOfRange) as Hrun
    by (vm_compute; reflexivity).
  rewrite Hrun in Hclaim. discriminate Hclaim.
  exists (list_ascii_of_string "abc"). split.
  - vm_compute. right. left.
  - vm_compute. reflexivity.
Qed.

(** C5, amended: [parse_seed] fails with InvalidFormat exactly when the
    string does not split into two parts. Otherwise the parts are checked
    from left to right and the first part that fails decides the error:
    InvalidNumber when it is not numeric, OutOfRange when it is a
    percentage outside [0,100] or an absolute coordinate outside
    [0, dimension). When both parts pass, the coordinates are the
    truncations of their floats, a percentage p standing for
    (p / 100) * (dimension - 1) in binary64 arithmetic. The examples of the
    specification hold. *)
Theorem parse_seed_classification seed_str width height :
  (parse_seed seed_str width height = Err InvalidFormat ↔
   length (seed_parts seed_str) ≠ 2%nat) ∧
  (∀ part0 part1,
     seed_parts seed_str = [part0; part1] →
     (parse_seed seed_str width height = Err InvalidNumber ↔
      not_numeric part0 ∨
      ((∃ x, part_float part0 width x) ∧ not_numeric part1)) ∧
     (parse_seed seed_str width height = Err OutOfRange ↔
      out_of_range part0 width ∨
      ((∃ x, part_float part0 width x) ∧ out_of_range part1 height)) ∧
     (∀ ix iy,
        parse_seed seed_str width height = Ok (ix, iy) ↔
        ∃ x y, part_float part0 width x ∧ part_float part1 height y ∧
               float_to_int x = Some ix ∧ float_to_int y = Some iy)) ∧
  parse_seed "50%,50%" 101 101 = Ok (50, 50) ∧
  parse_seed "100%,100%" 10 10 = Ok (9, 9) ∧
  parse_seed "0,0" 10 10 = Ok (0, 0) ∧
  parse_seed "10,5" 10 10 = Err OutOfRange ∧
  parse_seed "a,1" 10 10 = Err InvalidNumber ∧
  parse_seed "1" 10 10 = Err InvalidFormat.
Proof.
  split; [|split; [|by vm_compute]].
  - unfold seed_parts. rewrite length_fmap.
    destruct (split_comma (strip (list_ascii_of_string seed_str)))
      as [|raw0 [|raw1 [|raw2 l]]] eqn:E;
      try (unfold parse_seed; rewrite E; simpl; split; [lia|done]).
    rewrite (parse_seed_two_parts _ _ _ _ _ E). simpl. split; [|done].
    intros H. exfalso.
    apply (proj1 (proj1 (proj2 (proj2 (combine_parts_spec _ _))))) in H.
    destruct H as [H|[_ H]]; by apply parse_part_not_InvalidFormat in H.
  - intros part0 part1 Hparts. unfold seed_parts in Hparts.
    destruct (split_comma (strip (list_ascii_of_string seed_str)))
      as [|raw0 [|raw1 [|raw2 l]]] eqn:E; try discriminate Hparts.
    injection Hparts as <- <-.
    rewrite (parse_seed_two_parts _ _ _ _ _ E).
    destruct (combine_parts_spec (parse_part raw0 width) (parse_part raw1 height))
      as (Hnum & Hrange & _ & Hok).
    rewrite Hnum, Hrange. setoid_rewrite Hok.
    rewrite !parse_part_InvalidNumber, !parse_part_OutOfRange.
    setoid_rewrite parse_part_Ok. done.
Qed.

(** The percentage is scaled in floating point: 29% of the 101 pixels of a
    row is 28.999999999999996, truncated to 28. *)
Example parse_seed_rounds_down :
  parse_seed "29%,0%" 101 101 = Ok (28, 0).
Proof. vm_compute. reflexivity. Qed.

(** * Further properties *)

(** ** The color metric *)

Lemma color_distance_sq_sym c1 c2 :
  color_distance_sq c1 c2 = color_distance_sq c2 c1.
Proof.
  destruct c1 as [[[r1 g1] b1] a1], c2 as [[[r2 g2] b2] a2].
  cbv beta iota delta [color_distance_sq]. rewrite !Z.pow_2_r. ring.
Qed.

Lemma color_distance_sq_zero c1 c2 :
  color_distance_sq c1 c2 = 0 ↔ rgb c1 = rgb c2.
Proof.
  destruct c1 as [[[r1 g1] b1] a1], c2 as [[[r2 g2] b2] a2].
  cbv beta iota delta [color_distance_sq rgb]. rewrite !Z.pow_2_r. split.
  - intros H.
    pose proof (Z.square_nonneg (r1 - r2)).
    pose proof (Z.square_nonneg (g1 - g2)).
    pose proof (Z.square_nonneg (b1 - b2)).
    assert ((r1 - r2) * (r1 - r2) = 0) as Hr by lia.
    assert ((g1 - g2) * (g1 - g2) = 0) as Hg by lia.
    assert ((b1 - b2) * (b1 - b2) = 0) as Hb by lia.
    apply Z.mul_eq_0 in Hr, Hg, Hb. repeat f_equal; lia.
  - intros [= -> -> ->]. rewrite !Z.sub_diag. lia.
Qed.

(** X1: the distance is symmetric and non-negative, and it is zero exactly
    when the two colors have the same red, green and blue channels, whatever
    their alpha. *)
Theorem color_distance_symmetric_zero c1 c2 :
  color_distance c1 c2 = color_distance c2 c1 ∧
  (0 <= color_distance c1 c2)%R ∧
  (color_distance c1 c2 = 0%R ↔ rgb c1 = rgb c2).
Proof.
  unfold color_distance. split; [by rewrite color_distance_sq_sym|].
  split; [apply sqrt_pos|].
  rewrite <- color_distance_sq_zero. split.
  - intros H. apply sqrt_eq_0 in H.
    + by apply eq_IZR in H.
    + apply IZR_le, color_distance_sq_nonneg.
  - intros ->. apply sqrt_0.
Qed.

Lemma color_distance_sq_bound c1 c2 :
  valid_color c1 → valid_color c2 → color_distance_sq c1 c2 <= 195075.
Proof.
  destruct c1 as [[[r1 g1] b1] a1], c2 as [[[r2 g2] b2] a2].
  cbv beta iota delta [color_distance_sq valid_color]. rewrite !Z.pow_2_r.
  intros (? & ? & ? & _) (? & ? & ? & _).
  assert (∀ x y, 0 <= x <= 255 → 0 <= y <= 255 → (x - y) * (x - y) <= 65025)
    as Hsq by (intros; nia).
  pose proof (Hsq r1 r2). pose proof (Hsq g1 g2). pose proof (Hsq b1 b2). lia.
Qed.

(** X2: between colors whose channels are bytes the distance is below 442,
    so a threshold of 442 or more matches any two of them; the distance
    between black and white is above 441. *)
Theorem color_distance_range c1 c2 threshold :
  valid_color c1 → valid_color c2 →
  (color_distance c1 c2 < 442)%R ∧
  (442 <= threshold → within_threshold c1 c2 threshold = true) ∧
  (441 < color_distance black white)%R.
Proof.
  intros H1 H2. pose proof (color_distance_sq_bound c1 c2 H1 H2) as Hb.
  pose proof (color_distance_sq_nonneg c1 c2) as Hn. split_and!.
  - apply Rnot_le_lt. intros Hle.
    assert (color_distance c1 c2 <= IZR 442)%R as Hok.
    { apply within_threshold_spec. unfold within_threshold.
      apply andb_true_iff. split; apply Z.leb_le; lia. }
    assert (color_distance c1 c2 = IZR 442) as Heq by (by apply Rle_antisym).
    unfold color_distance in Heq.
    assert (IZR (color_distance_sq c1 c2) = IZR (442 * 442)) as Hsq.
    { rewrite mult_IZR, <- Heq. symmetry. apply sqrt_sqrt. by apply IZR_le. }
    apply eq_IZR in Hsq. lia.
  - intros Ht. unfold within_threshold.
    apply andb_true_iff. split; [apply Z.leb_le; lia|apply Z.leb_le; nia].
  - apply Rnot_le_lt. intros Hle.
    apply (proj2 (within_threshold_spec _ _ 441)) in Hle.
    by vm_compute in Hle.
Qed.

Lemma color_distance_range_witness :
  (color_distance red blue < 442)%R ∧
  (442 <= 500 → within_threshold red blue 500 = true) ∧
  (441 < color_distance black white)%R.
Proof.
  apply (color_distance_range red blue 500); vm_compute; intuition discriminate.
Defined.




(** ** The removal engine: monotonicity *)

Lemma within_threshold_mono sc cur t t' :
  t <= t' → within_threshold sc cur t = true → within_threshold sc cur t' = true.
Proof.
  unfold within_threshold. rewrite !andb_true_iff, !Z.leb_le. intros Ht [? ?].
  split; [lia|nia].
Qed.

Lemma seed_match_mono img seeds seeds' t t' c :
  seeds ⊆ seeds' → t <= t' →
  seed_match img seeds t c = true → seed_match img seeds' t' c = true.
Proof.
  intros Hsub Ht. rewrite !seed_match_spec.
  intros (cur & s & sc & Hc & Hs & Hsc & Hw).
  exists cur, s, sc. split_and!; try done; [by apply Hsub|].
  by eapply within_threshold_mono.
Qed.

Lemma adjacent_eight_way e c c' : adjacent e c c' → adjacent true c c'.
Proof.
  intros (d & Hd & ->). exists d. split; [|done].
  unfold neighbors in *. apply elem_of_app in Hd as [Hd|Hd].
  - apply elem_of_app. by left.
  - destruct e; [apply elem_of_app; by right|by inversion Hd].
Qed.

Lemma connected_mono img seeds seeds' t t' e e' c :
  seeds ⊆ seeds' → t <= t' → (e = true → e' = true) →
  connected img seeds t e c → connected img seeds' t' e' c.
Proof.
  intros Hsub Ht He. induction 1 as [s Hs Hm|c c' Hc IH Hadj Hm].
  - apply connected_seed; [by apply Hsub|by eapply seed_match_mono].
  - eapply connected_step; [exact IH| |by eapply seed_match_mono].
    destruct e.
    + by rewrite He.
    + destruct e'; [by eapply adjacent_eight_way|done].
Qed.

Lemma floodfill_compare img seeds seeds' t t' e e' :
  wf_image img →
  Forall (in_bounds (width img) (height img)) seeds →
  Forall (in_bounds (width img) (height img)) seeds' →
  (∀ c, connected img seeds t e c → connected img seeds' t' e' c) →
  ∃ img1 n1 img2 n2,
    floodfill_remove img seeds t e = Some (img1, n1) ∧
    floodfill_remove img seeds' t' e' = Some (img2, n2) ∧
    (n1 ≤ n2)%nat ∧
    ∀ c, pixels img1 !! c = Some transparent →
         pixels img2 !! c = Some transparent.
Proof.
  intros Hwf Hs Hs' Hsub.
  destruct (floodfill_run_spec (floodfill_fuel img seeds) img seeds t e Hwf Hs)
    as (R1 & px1 & Hrun1 & HR1 & Hpx1); [done|].
  destruct (floodfill_run_spec (floodfill_fuel img seeds') img seeds' t' e' Hwf Hs')
    as (R2 & px2 & Hrun2 & HR2 & Hpx2); [done|].
  assert (R1 ⊆ R2) as HR by (intros c Hc%HR1; by apply HR2, Hsub).
  eexists _, _, _, _. split; [exact Hrun1|]. split; [exact Hrun2|].
  split; [by apply subseteq_size|].
  intros c. simpl. rewrite Hpx1, Hpx2.
  case_bool_decide as H1.
  - intros _. rewrite bool_decide_eq_true_2; [done|by apply HR].
  - intros ->. by case_bool_decide.
Qed.

(** X4: a flood fill with more seeds, a larger threshold or 8 neighbours
    instead of 4 leaves transparent every pixel that the smaller run leaves
    transparent, and its count is not smaller. *)
Theorem floodfill_monotone img seeds seeds' t t' e e' :
  wf_image img →
  Forall (in_bounds (width img) (height img)) seeds →
  Forall (in_bounds (width img) (height img)) seeds' →
  seeds ⊆ seeds' → t <= t' → (e = true → e' = true) →
  ∃ img1 n1 img2 n2,
    floodfill_remove img seeds t e = Some (img1, n1) ∧
    floodfill_remove img seeds' t' e' = Some (img2, n2) ∧
    (n1 ≤ n2)%nat ∧
    ∀ c, pixels img1 !! c = Some transparent →
         pixels img2 !! c = Some transparent.
Proof.
  intros Hwf Hs Hs' Hsub Ht He. apply floodfill_compare; try done.
  intros c. by apply connected_mono.
Qed.

Lemma floodfill_monotone_witness :
  ∃ img1 n1 img2 n2,
    floodfill_remove island_image island_seeds 10 false = Some (img1, n1) ∧
    floodfill_remove island_image ((2, 0) :: island_seeds) 20 true
      = Some (img2, n2) ∧
    (n1 ≤ n2)%nat ∧
    ∀ c, pixels img1 !! c = Some transparent →
         pixels img2 !! c = Some transparent.
Proof.
  apply (floodfill_monotone island_image island_seeds ((2, 0) :: island_seeds)
           10 20 false true).
  - apply wf_imageb_spec. vm_compute. reflexivity.
  - repeat constructor; simpl; lia.
  - repeat constructor; simpl; lia.
  - intros c Hc. by right.
  - lia.
  - discriminate.
Defined.

Lemma length_filter_mono {A} (P Q : A → Prop) `{!∀ x, Decision (P x)}
    `{!∀ x, Decision (Q x)} (l : list A) :
  (∀ x, P x → Q x) → (length (filter P l) ≤ length (filter Q l))%nat.
Proof.
  intros HPQ. induction l as [|x l IH]; [done|].
  rewrite !filter_cons. destruct (decide (P x)) as [HP|HP].
  - rewrite decide_True by auto. simpl. lia.
  - destruct (decide (Q x)); simpl; lia.
Qed.

(** X5: a global purge with more seeds or a larger threshold leaves
    transparent every pixel that the smaller run leaves transparent, and its
    count is not smaller. *)
Theorem global_purge_monotone img seeds seeds' t t' :
  wf_image img →
  Forall (in_bounds (width img) (height img)) seeds →
  Forall (in_bounds (width img) (height img)) seeds' →
  seeds ⊆ seeds' → t <= t' →
  ∃ img1 n1 img2 n2,
    global_purge img seeds t = Some (img1, n1) ∧
    global_purge img seeds' t' = Some (img2, n2) ∧
    (n1 ≤ n2)%nat ∧
    ∀ c, pixels img1 !! c = Some transparent →
         pixels img2 !! c = Some transparent.
Proof.
  intros Hwf Hs Hs' Hsub Ht.
  destruct (global_purge_spec img seeds t Hwf Hs) as (px1 & Hrun1 & Hpx1).
  destruct (global_purge_spec img seeds' t' Hwf Hs') as (px2 & Hrun2 & Hpx2).
  eexists _, _, _, _. split; [exact Hrun1|]. split; [exact Hrun2|]. split.
  - unfold matching_pixels. apply length_filter_mono.
    intros c. by apply seed_match_mono.
  - intros c. simpl. rewrite Hpx1, Hpx2.
    destruct (seed_match img seeds t c) eqn:E1.
    + intros _. by rewrite (seed_match_mono _ _ _ _ _ _ Hsub Ht E1).
    + intros Hc. rewrite Hc. by destruct (seed_match img seeds' t' c).
Qed.

Lemma global_purge_monotone_witness :
  ∃ img1 n1 img2 n2,
    global_purge island_image island_seeds 10 = Some (img1, n1) ∧
    global_purge island_image ((1, 0) :: island_seeds) 20 = Some (img2, n2) ∧
    (n1 ≤ n2)%nat ∧
    ∀ c, pixels img1 !! c = Some transparent →
         pixels img2 !! c = Some transparent.
Proof.
  apply (global_purge_monotone island_image island_seeds ((1, 0) :: island_seeds)
           10 20).
  - apply wf_imageb_spec. vm_compute. reflexivity.
  - repeat constructor; simpl; lia.
  - repeat constructor; simpl; lia.
  - intros c Hc. by right.
  - lia.
Defined.

(** ** The removal engine: flood fill against global purge *)

(** X6: every pixel that the flood fill leaves transparent the global purge
    leaves transparent too, and the two return the same buffer when every
    matching pixel is connected to a seed through matching pixels. *)
Theorem floodfill_within_global_purge img seeds threshold eight_way :
  wf_image img →
  Forall (in_bounds (width img) (height img)) seeds →
  ∃ img_f n_f img_g n_g,
    floodfill_remove img seeds threshold eight_way = Some (img_f, n_f) ∧
    global_purge img seeds threshold = Some (img_g, n_g) ∧
    (∀ c, pixels img_f !! c = Some transparent →
          pixels img_g !! c = Some transparent) ∧
    ((∀ c, seed_match img seeds threshold c = true →
           connected img seeds threshold eight_way c) →
     img_f = img_g).
Proof.
  intros Hwf Hseeds.
  destruct (floodfill_run_spec (floodfill_fuel img seeds) img seeds threshold
              eight_way Hwf Hseeds) as (R & px & Hrun & HR & Hpx); [done|].
  destruct (global_purge_spec img seeds threshold Hwf Hseeds)
    as (px' & Hrun' & Hpx').
  eexists _, _, _, _. split; [exact Hrun|]. split; [exact Hrun'|]. split.
  - intros c. simpl. rewrite Hpx, Hpx'. case_bool_decide as Hc.
    + intros _. apply HR, connected_match in Hc. by rewrite Hc.
    + intros Hc'. rewrite Hc'. by destruct (seed_match _ _ _ _).
  - intros Hall. f_equal. apply map_eq. intros c. rewrite Hpx, Hpx'.
    destruct (seed_match img seeds threshold c) eqn:Em.
    + rewrite bool_decide_eq_true_2; [done|]. by apply HR, Hall.
    + rewrite bool_decide_eq_false_2; [done|].
      intros Hc%HR%connected_match. congruence.
Qed.

Lemma floodfill_within_global_purge_witness :
  ∃ img_f n_f img_g n_g,
    floodfill_remove island_image island_seeds 10 false = Some (img_f, n_f) ∧
    global_purge island_image island_seeds 10 = Some (img_g, n_g) ∧
    (∀ c, pixels img_f !! c = Some transparent →
          pixels img_g !! c = Some transparent) ∧
    ((∀ c, seed_match island_image island_seeds 10 c = true →
           connected island_image island_seeds 10 false c) →
     img_f = img_g).
Proof.
  apply (floodfill_within_global_purge island_image island_seeds 10 false).
  - apply wf_imageb_spec. vm_compute. reflexivity.
  - repeat constructor; simpl; lia.
Defined.

(** ** The removal engine: the seeds themselves *)

Lemma within_threshold_refl c threshold :
  0 <= threshold → within_threshold c c threshold = true.
Proof.
  intros Ht. unfold within_threshold.
  rewrite (proj2 (color_distance_sq_zero c c)) by done.
  apply andb_true_iff. split; apply Z.leb_le; [done|nia].
Qed.

Lemma seed_match_seed img seeds threshold s :
  wf_image img → in_bounds (width img) (height img) s →
  0 <= threshold → s ∈ seeds →
  seed_match img seeds threshold s = true.
Proof.
  intros Hwf Hb Ht Hs. destruct (wf_lookup_in_bounds img s Hwf Hb) as [p Hp].
  apply seed_match_spec. exists p, s, p. split_and!; try done.
  by apply within_threshold_refl.
Qed.

(** X7: with a non-negative threshold every seed pixel is overwritten by
    the flood fill and by the global purge, and both counts are at least the
    number of distinct seeds. *)
Theorem seeds_are_removed img seeds threshold eight_way :
  wf_image img →
  Forall (in_bounds (width img) (height img)) seeds →
  0 <= threshold →
  ∃ img_f n_f img_g n_g,
    floodfill_remove img seeds threshold eight_way = Some (img_f, n_f) ∧
    global_purge img seeds threshold = Some (img_g, n_g) ∧
    (∀ s, s ∈ seeds →
          pixels img_f !! s = Some transparent ∧
          pixels img_g !! s = Some transparent) ∧
    (size (list_to_set seeds : gset coord) ≤ n_f)%nat ∧
    (size (list_to_set seeds : gset coord) ≤ n_g)%nat.
Proof.
  intros Hwf Hseeds Ht.
  destruct (floodfill_run_spec (floodfill_fuel img seeds) img seeds threshold
              eight_way Hwf Hseeds) as (R & px & Hrun & HR & Hpx); [done|].
  destruct (global_purge_spec img seeds threshold Hwf Hseeds)
    as (px' & Hrun' & Hpx').
  assert (∀ s, s ∈ seeds → seed_match img seeds threshold s = true) as Hm.
  { intros s Hs. apply seed_match_seed; try done.
    rewrite Forall_forall in Hseeds. auto. }
  assert ((list_to_set seeds : gset coord) ⊆ R) as Hsub.
  { intros s Hs%elem_of_list_to_set. apply HR, connected_seed; auto. }
  eexists _, _, _, _. split; [exact Hrun|]. split; [exact Hrun'|]. split_and!.
  - intros s Hs. simpl. rewrite Hpx, Hpx', (Hm s Hs).
    rewrite bool_decide_eq_true_2; [done|]. apply Hsub.
    by apply elem_of_list_to_set.
  - by apply subseteq_size.
  - etrans; [apply (subseteq_size _ _ Hsub)|].
    rewrite <- (size_list_to_set (C:=gset coord) (matching_pixels img seeds threshold))
      by apply NoDup_matching_pixels.
    apply subseteq_size. intros c Hc%HR%connected_match.
    apply elem_of_list_to_set. by apply elem_of_matching_pixels.
Qed.

Lemma seeds_are_removed_witness :
  ∃ img_f n_f img_g n_g,
    floodfill_remove island_image island_seeds 10 false = Some (img_f, n_f) ∧
    global_purge island_image island_seeds 10 = Some (img_g, n_g) ∧
    (∀ s, s ∈ island_seeds →
          pixels img_f !! s = Some transparent ∧
          pixels img_g !! s = Some transparent) ∧
    (size (list_to_set island_seeds : gset coord) ≤ n_f)%nat ∧
    (size (list_to_set island_seeds : gset coord) ≤ n_g)%nat.
Proof.
  apply (seeds_are_removed island_image island_seeds 10 false).
  - apply wf_imageb_spec. vm_compute. reflexivity.
  - repeat constructor; simpl; lia.
  - lia.
Defined.

Lemma seed_match_negative img seeds threshold c :
  threshold < 0 → seed_match img seeds threshold c = false.
Proof.
  intros Ht. apply not_true_is_false.
  intros (cur & s & sc & _ & _ & _ & Hw)%seed_match_spec.
  unfold within_threshold in Hw. apply andb_true_iff in Hw as [Hw _].
  apply Z.leb_le in Hw. lia.
Qed.

(** X8: with a negative threshold nothing matches: the flood fill and the
    global purge return the buffer as it was, with a count of 0. *)
Theorem negative_threshold_removes_nothing img seeds threshold eight_way :
  wf_image img →
  Forall (in_bounds (width img) (height img)) seeds →
  threshold < 0 →
  floodfill_remove img seeds threshold eight_way = Some (img, 0%nat) ∧
  global_purge img seeds threshold = Some (img, 0%nat).
Proof.
  intros Hwf Hseeds Ht.
  destruct (floodfill_run_spec (floodfill_fuel img seeds) img seeds threshold
              eight_way Hwf Hseeds) as (R & px & Hrun & HR & Hpx); [done|].
  destruct (global_purge_spec img seeds threshold Hwf Hseeds)
    as (px' & Hrun' & Hpx').
  assert (R = ∅) as ->.
  { apply set_eq. intros c. split; [|set_solver].
    intros Hc%HR%connected_match.
    by rewrite seed_match_negative in Hc. }
  split.
  - unfold floodfill_remove. rewrite Hrun, size_empty. f_equal. f_equal.
    destruct img as [w h px0]. simpl in *. f_equal. apply map_eq. intros c.
    rewrite Hpx. by rewrite bool_decide_eq_false_2 by set_solver.
  - rewrite Hrun'. f_equal. f_equal.
    + destruct img as [w h px0]. simpl in *. f_equal. apply map_eq. intros c.
      by rewrite Hpx', seed_match_negative.
    + unfold matching_pixels.
      induction (coords (width img) (height img)) as [|c l IH]; [done|].
      rewrite filter_cons, decide_False; [done|].
      by rewrite seed_match_negative.
Qed.

Lemma negative_threshold_removes_nothing_witness :
  floodfill_remove island_image island_seeds (-1) true
    = Some (island_image, 0%nat) ∧
  global_purge island_image island_seeds (-1) = Some (island_image, 0%nat).
Proof.
  apply (negative_threshold_removes_nothing island_image island_seeds (-1) true).
  - apply wf_imageb_spec. vm_compute. reflexivity.
  - repeat constructor; simpl; lia.
  - lia.
Defined.

(** ** The removal engine: order and repetition of the seeds *)

Lemma seed_match_same_seeds img seeds seeds' threshold c :
  (∀ s, s ∈ seeds ↔ s ∈ seeds') →
  seed_match img seeds threshold c = seed_match img seeds' threshold c.
Proof.
  intros Hs. apply eq_true_iff_eq.
  split; apply seed_match_mono; try lia; intros s; apply Hs.
Qed.

(** X9: the result depends on the set of seeds only: two seed lists with
    the same elements, in any order and with any repetition, give the same
    buffer and the same count, for the flood fill and for the global purge. *)
Theorem seed_order_is_irrelevant img seeds seeds' threshold eight_way :
  wf_image img →
  Forall (in_bounds (width img) (height img)) seeds →
  (∀ s, s ∈ seeds ↔ s ∈ seeds') →
  floodfill_remove img seeds threshold eight_way
    = floodfill_remove img seeds' threshold eight_way ∧
  global_purge img seeds threshold = global_purge img seeds' threshold.
Proof.
  intros Hwf Hseeds Hsame.
  assert (Forall (in_bounds (width img) (height img)) seeds') as Hseeds'.
  { rewrite Forall_forall in *. intros s Hs. by apply Hseeds, Hsame. }
  destruct (floodfill_run_spec (floodfill_fuel img seeds) img seeds threshold
              eight_way Hwf Hseeds) as (R & px & Hrun & HR & Hpx); [done|].
  destruct (floodfill_run_spec (floodfill_fuel img seeds') img seeds' threshold
              eight_way Hwf Hseeds') as (R' & px' & Hrun' & HR' & Hpx'); [done|].
  destruct (global_purge_spec img seeds threshold Hwf Hseeds)
    as (qx & Hpurge & Hqx).
  destruct (global_purge_spec img seeds' threshold Hwf Hseeds')
    as (qx' & Hpurge' & Hqx').
  split.
  - unfold floodfill_remove. rewrite Hrun, Hrun'.
    assert (R = R') as ->.
    { apply set_eq. intros c. rewrite HR, HR'.
      split; apply connected_mono; try done; try lia; intros s; apply Hsame. }
    do 3 f_equal. apply map_eq. intros c. by rewrite Hpx, Hpx'.
  - rewrite Hpurge, Hpurge'. f_equal. f_equal.
    + f_equal. apply map_eq. intros c.
      by rewrite Hqx, Hqx', (seed_match_same_seeds _ _ _ _ _ Hsame).
    + unfold matching_pixels. f_equal. apply list_filter_iff. intros c.
      by rewrite (seed_match_same_seeds _ _ _ _ _ Hsame).
Qed.

Lemma seed_order_is_irrelevant_witness :
  floodfill_remove island_image [(0, 0); (2, 0)] 10 false
    = floodfill_remove island_image [(2, 0); (0, 0); (2, 0)] 10 false ∧
  global_purge island_image [(0, 0); (2, 0)] 10
    = global_purge island_image [(2, 0); (0, 0); (2, 0)] 10.
Proof.
  apply (seed_order_is_irrelevant island_image [(0, 0); (2, 0)]
           [(2, 0); (0, 0); (2, 0)] 10 false).
  - apply wf_imageb_spec. vm_compute. reflexivity.
  - repeat constructor; simpl; lia.
  - intros s. rewrite !elem_of_cons. rewrite !elem_of_nil. tauto.
Defined.

(** ** The removal engine: the returned buffer *)

Lemma wf_overwritten (img : image) (px : gmap coord color) (W : gset coord) :
  wf_image img →
  (∀ c, c ∈ W → in_bounds (width img) (height img) c) →
  (∀ c, px !! c = if bool_decide (c ∈ W) then Some transparent
                  else pixels img !! c) →
  wf_image (Image (width img) (height img) px).
Proof.
  intros Hwf HW Hpx c. simpl. rewrite Hpx. case_bool_decide as Hc.
  - split; [intros _; by apply HW|by eexists].
  - apply Hwf.
Qed.

(** X10: the buffer returned by the flood fill or by the global purge is
    well formed again, so that it can be trimmed or processed once more, and
    neither count exceeds the number of pixels. *)
Theorem removal_keeps_buffer_well_formed img seeds threshold eight_way :
  wf_image img →
  Forall (in_bounds (width img) (height img)) seeds →
  ∃ img_f n_f img_g n_g,
    floodfill_remove img seeds threshold eight_way = Some (img_f, n_f) ∧
    global_purge img seeds threshold = Some (img_g, n_g) ∧
    wf_image img_f ∧ wf_image img_g ∧
    (n_f ≤ Z.to_nat (width img) * Z.to_nat (height img))%nat ∧
    (n_g ≤ Z.to_nat (width img) * Z.to_nat (height img))%nat.
Proof.
  intros Hwf Hseeds.
  destruct (floodfill_run_spec (floodfill_fuel img seeds) img seeds threshold
              eight_way Hwf Hseeds) as (R & px & Hrun & HR & Hpx); [done|].
  destruct (global_purge_spec img seeds threshold Hwf Hseeds)
    as (px' & Hrun' & Hpx').
  assert (∀ c, c ∈ R → in_bounds (width img) (height img) c) as HRb.
  { intros c Hc%HR%connected_match. by eapply seed_match_in_bounds. }
  eexists _, _, _, _. split; [exact Hrun|]. split; [exact Hrun'|]. split_and!.
  - by eapply wf_overwritten.
  - apply (wf_overwritten img px'
             (list_to_set (matching_pixels img seeds threshold))); [done| |].
    + intros c Hc%elem_of_list_to_set%elem_of_matching_pixels; [|done].
      by eapply seed_match_in_bounds.
    + intros c. rewrite Hpx'.
      rewrite (bool_decide_ext _ (seed_match img seeds threshold c = true)).
      * by destruct (seed_match _ _ _ _).
      * by rewrite elem_of_list_to_set, elem_of_matching_pixels.
  - rewrite <- length_coords.
    rewrite <- (size_list_to_set (C:=gset coord)) by apply NoDup_coords.
    apply subseteq_size. intros c Hc. apply elem_of_list_to_set, elem_of_coords.
    by apply HRb.
  - rewrite <- length_coords. unfold matching_pixels. apply length_filter.
Qed.

Lemma removal_keeps_buffer_well_formed_witness :
  ∃ img_f n_f img_g n_g,
    floodfill_remove island_image island_seeds 10 false = Some (img_f, n_f) ∧
    global_purge island_image island_seeds 10 = Some (img_g, n_g) ∧
    wf_image img_f ∧ wf_image img_g ∧
    (n_f ≤ Z.to_nat (width island_image) * Z.to_nat (height island_image))%nat ∧
    (n_g ≤ Z.to_nat (width island_image) * Z.to_nat (height island_image))%nat.
Proof.
  apply (removal_keeps_buffer_well_formed island_image island_seeds 10 false).
  - apply wf_imageb_spec. vm_compute. reflexivity.
  - repeat constructor; simpl; lia.
Defined.

(** ** The removal engine: a threshold of zero *)

Lemma within_threshold_zero sc cur :
  within_threshold sc cur 0 = true ↔ rgb sc = rgb cur.
Proof.
  unfold within_threshold. rewrite andb_true_iff, !Z.leb_le.
  rewrite <- color_distance_sq_zero.
  pose proof (color_distance_sq_nonneg sc cur). lia.
Qed.

(** X11: with a threshold of 0 the global purge overwrites exactly the
    pixels whose red, green and blue channels equal those of a seed pixel,
    whatever their alpha, and keeps the others. *)
Theorem zero_threshold_is_rgb_equality img seeds :
  wf_image img →
  Forall (in_bounds (width img) (height img)) seeds →
  ∃ img' n,
    global_purge img seeds 0 = Some (img', n) ∧
    ∀ c cur,
      pixels img !! c = Some cur →
      ((∃ s sc, s ∈ seeds ∧ pixels img !! s = Some sc ∧ rgb sc = rgb cur) →
       pixels img' !! c = Some transparent) ∧
      (¬ (∃ s sc, s ∈ seeds ∧ pixels img !! s = Some sc ∧ rgb sc = rgb cur) →
       pixels img' !! c = Some cur).
Proof.
  intros Hwf Hseeds.
  destruct (global_purge_spec img seeds 0 Hwf Hseeds) as (px & Hrun & Hpx).
  eexists _, _. split; [exact Hrun|]. intros c cur Hc. simpl. rewrite Hpx.
  assert (seed_match img seeds 0 c = true ↔
          ∃ s sc, s ∈ seeds ∧ pixels img !! s = Some sc ∧ rgb sc = rgb cur)
    as Hiff.
  { rewrite seed_match_spec. split.
    - intros (cur' & s & sc & Hc' & Hs & Hsc & Hw).
      assert (cur' = cur) as -> by congruence.
      exists s, sc. split_and!; try done. by apply within_threshold_zero.
    - intros (s & sc & Hs & Hsc & Hrgb). exists cur, s, sc.
      split_and!; try done. by apply within_threshold_zero. }
  split.
  - intros Hex. by rewrite (proj2 Hiff Hex).
  - intros Hnex. destruct (seed_match img seeds 0 c) eqn:Em; [|done].
    destruct Hnex. by apply Hiff.
Qed.

Lemma zero_threshold_is_rgb_equality_witness :
  ∃ img' n,
    global_purge island_image island_seeds 0 = Some (img', n) ∧
    ∀ c cur,
      pixels island_image !! c = Some cur →
      ((∃ s sc, s ∈ island_seeds ∧ pixels island_image !! s = Some sc ∧
                rgb sc = rgb cur) →
       pixels img' !! c = Some transparent) ∧
      (¬ (∃ s sc, s ∈ island_seeds ∧ pixels island_image !! s = Some sc ∧
                  rgb sc = rgb cur) →
       pixels img' !! c = Some cur).
Proof.
  apply (zero_threshold_is_rgb_equality island_image island_seeds).
  - apply wf_imageb_spec. vm_compute. reflexivity.
  - repeat constructor; simpl; lia.
Defined.

(** ** The removal engine: a buffer in which every pixel matches *)

Lemma base_neighbors e d :
  d ∈ [(0, -1); (-1, 0); (1, 0); (0, 1)] → d ∈ neighbors e.
Proof. intros Hd. unfold neighbors. apply elem_of_app. by left. Qed.

Lemma grid_row_connected img seeds t e s (n : nat) x :
  (∀ c, in_bounds (width img) (height img) c → seed_match img seeds t c = true) →
  s ∈ seeds → in_bounds (width img) (height img) s →
  in_bounds (width img) (height img) (x, s.2) →
  Z.abs_nat (x - s.1) = n →
  connected img seeds t e (x, s.2).
Proof.
  intros Hall Hs Hsb. revert x. induction n as [|n IH]; intros x Hx Hn.
  - assert (x = s.1) as -> by lia. rewrite <- surjective_pairing.
    apply connected_seed; auto.
  - destruct (Z.lt_ge_cases s.1 x) as [Hlt|Hge].
    + apply (connected_step _ _ _ _ (x - 1, s.2)).
      * apply IH; [|lia]. unfold in_bounds in *. simpl in *. lia.
      * exists (1, 0). split; [|simpl; f_equal; lia].
        apply base_neighbors. rewrite !elem_of_cons. auto.
      * by apply Hall.
    + apply (connected_step _ _ _ _ (x + 1, s.2)).
      * apply IH; [|lia]. unfold in_bounds in *. simpl in *. lia.
      * exists (-1, 0). split; [|simpl; f_equal; lia].
        apply base_neighbors. rewrite !elem_of_cons. auto.
      * by apply Hall.
Qed.

Lemma grid_connected img seeds t e s c :
  (∀ c, in_bounds (width img) (height img) c → seed_match img seeds t c = true) →
  s ∈ seeds → in_bounds (width img) (height img) s →
  in_bounds (width img) (height img) c →
  connected img seeds t e c.
Proof.
  intros Hall Hs Hsb Hc. destruct c as [x y].
  assert (∀ (n : nat) y', in_bounds (width img) (height img) (x, y') →
            Z.abs_nat (y' - s.2) = n → connected img seeds t e (x, y')) as Hcol.
  { induction n as [|n IH]; intros y' Hy Hn.
    - assert (y' = s.2) as -> by lia.
      by eapply grid_row_connected.
    - destruct (Z.lt_ge_cases s.2 y') as [Hlt|Hge].
      + apply (connected_step _ _ _ _ (x, y' - 1)).
        * apply IH; [|lia]. unfold in_bounds in *. simpl in *. lia.
        * exists (0, 1). split; [|simpl; f_equal; lia].
          apply base_neighbors. rewrite !elem_of_cons. auto.
        * by apply Hall.
      + apply (connected_step _ _ _ _ (x, y' + 1)).
        * apply IH; [|lia]. unfold in_bounds in *. simpl in *. lia.
        * exists (0, -1). split; [|simpl; f_equal; lia].
          apply base_neighbors. rewrite !elem_of_cons. auto.
        * by apply Hall. }
  by apply (Hcol (Z.abs_nat (y - s.2))).
Qed.

(** X12: when every pixel of the buffer matches a seed color, a flood fill
    from any non-empty list of in-bounds seeds, with 4 or 8 neighbours,
    overwrites the whole buffer and counts every pixel. *)
Theorem floodfill_clears_matching_buffer img seeds threshold eight_way :
  wf_image img →
  seeds ≠ [] →
  Forall (in_bounds (width img) (height img)) seeds →
  (∀ c, in_bounds (width img) (height img) c →
        seed_match img seeds threshold c = true) →
  ∃ img',
    floodfill_remove img seeds threshold eight_way
      = Some (img', (Z.to_nat (width img) * Z.to_nat (height img))%nat) ∧
    ∀ c, in_bounds (width img) (height img) c →
         pixels img' !! c = Some transparent.
Proof.
  intros Hwf Hne Hseeds Hall.
  destruct (floodfill_run_spec (floodfill_fuel img seeds) img seeds threshold
              eight_way Hwf Hseeds) as (R & px & Hrun & HR & Hpx); [done|].
  destruct seeds as [|s seeds]; [done|].
  assert (in_bounds (width img) (height img) s) as Hsb
    by (by apply Forall_cons in Hseeds as [? _]).
  assert (R = list_to_set (coords (width img) (height img))) as HRall.
  { apply set_eq. intros c. rewrite HR, elem_of_list_to_set, elem_of_coords.
    split.
    - intros Hc%connected_match. by eapply seed_match_in_bounds.
    - intros Hc. eapply (grid_connected _ _ _ _ s); try done. left. }
  exists (Image (width img) (height img) px). split.
  - unfold floodfill_remove. rewrite Hrun, HRall.
    by rewrite size_list_to_set, length_coords by apply NoDup_coords.
  - intros c Hc. simpl. rewrite Hpx, bool_decide_eq_true_2; [done|].
    rewrite HRall. by apply elem_of_list_to_set, elem_of_coords.
Qed.

(** A 3x2 buffer of one color. *)
Lemma floodfill_clears_matching_buffer_witness :
  ∃ img',
    floodfill_remove (image_of_rows 3 2 (replicate 2 (replicate 3 red)))
      [(1, 1)] 0 false
      = Some (img', (Z.to_nat 3 * Z.to_nat 2)%nat) ∧
    ∀ c, in_bounds 3 2 c → pixels img' !! c = Some transparent.
Proof.
  apply (floodfill_clears_matching_buffer
           (image_of_rows 3 2 (replicate 2 (replicate 3 red))) [(1, 1)] 0 false).
  - apply wf_imageb_spec. vm_compute. reflexivity.
  - discriminate.
  - repeat constructor; simpl; lia.
  - intros c Hc%elem_of_coords. revert c Hc. apply Forall_forall.
    vm_compute. repeat constructor.
Defined.

(** ** The threshold validation *)

(** X13: the validation accepts exactly the integers from 0 to 441 and
    returns them unchanged. An accepted threshold matches every color with
    itself, and never matches a black pixel with a white one: 441 is below
    their distance. *)
Theorem validated_threshold value :
  (validate_threshold value = None ↔ value < 0 ∨ 441 < value) ∧
  ∀ t, validate_threshold value = Some t →
       t = value ∧
       (∀ c, within_threshold c c t = true) ∧
       (∀ c1 c2, rgb c1 = (0, 0, 0) → rgb c2 = (255, 255, 255) →
                 within_threshold c1 c2 t = false).
Proof.
  unfold validate_threshold, THRESHOLD_MIN, THRESHOLD_MAX.
  destruct (0 <=? value) eqn:E0; destruct (value <=? 441) eqn:E1; simpl;
    try apply Z.leb_le in E0; try apply Z.leb_le in E1;
    try apply Z.leb_gt in E0; try apply Z.leb_gt in E1;
    (split; [split; [try done; intros _; lia|try done; intros; lia]|]);
    intros t [= <-].
  split; [done|]. split.
  - intros c. by apply within_threshold_refl.
  - intros [[[r1 g1] b1] a1] [[[r2 g2] b2] a2] [= -> -> ->] [= -> -> ->].
    unfold within_threshold. apply andb_false_iff. right.
    apply Z.leb_gt. cbv beta iota delta [color_distance_sq].
    rewrite !Z.pow_2_r. nia.
Qed.

(** ** The corner seeds *)

Lemma corner_seeds_in_bounds_aux width height :
  1 <= width → 1 <= height →
  Forall (in_bounds width height) (get_corner_seeds width height).
Proof.
  intros Hw Hh. unfold get_corner_seeds. rewrite !Forall_cons, Forall_nil.
  unfold in_bounds. simpl. lia.
Qed.

(** The four corner seeds lie inside the image exactly when its width and
    height are at least 1. *)
Theorem corner_seeds_in_bounds width height :
  Forall (in_bounds width height) (get_corner_seeds width height)
  ↔ 1 <= width ∧ 1 <= height.
Proof.
  unfold get_corner_seeds. rewrite !Forall_cons, Forall_nil.
  unfold in_bounds. simpl. lia.
Qed.

(** X14: on a buffer with at least one pixel and with a non-negative
    threshold, the flood fill and the global purge seeded with the four
    corners both return, and the four corner pixels are transparent in both
    results. *)
Theorem corner_seeds_clear_corners img threshold eight_way :
  wf_image img →
  1 <= width img → 1 <= height img →
  0 <= threshold →
  ∃ img_f n_f img_g n_g,
    floodfill_remove img (get_corner_seeds (width img) (height img))
      threshold eight_way = Some (img_f, n_f) ∧
    global_purge img (get_corner_seeds (width img) (height img)) threshold
      = Some (img_g, n_g) ∧
    ∀ c, c ∈ [(0, 0); (width img - 1, 0); (0, height img - 1);
              (width img - 1, height img - 1)] →
         pixels img_f !! c = Some transparent ∧
         pixels img_g !! c = Some transparent.
Proof.
  intros Hwf Hw Hh Ht.
  set (seeds := get_corner_seeds (width img) (height img)).
  assert (Forall (in_bounds (width img) (height img)) seeds) as Hseeds
    by (by apply corner_seeds_in_bounds_aux).
  destruct (floodfill_run_spec (floodfill_fuel img seeds) img seeds threshold
              eight_way Hwf Hseeds) as (R & px & Hrun & HR & Hpx); [done|].
  destruct (global_purge_spec img seeds threshold Hwf Hseeds)
    as (px' & Hrun' & Hpx').
  eexists _, _, _, _. split; [exact Hrun|]. split; [exact Hrun'|].
  intros c Hc. change (c ∈ seeds) in Hc.
  assert (seed_match img seeds threshold c = true) as Hm.
  { apply seed_match_seed; try done. rewrite Forall_forall in Hseeds. auto. }
  simpl. rewrite Hpx, Hpx', Hm. split; [|done].
  rewrite bool_decide_eq_true_2; [done|]. by apply HR, connected_seed.
Qed.

Lemma corner_seeds_clear_corners_witness :
  ∃ img_f n_f img_g n_g,
    floodfill_remove island_image
      (get_corner_seeds (width island_image) (height island_image))
      10 false = Some (img_f, n_f) ∧
    global_purge island_image
      (get_corner_seeds (width island_image) (height island_image)) 10
      = Some (img_g, n_g) ∧
    ∀ c, c ∈ [(0, 0); (width island_image - 1, 0); (0, height island_image - 1);
              (width island_image - 1, height island_image - 1)] →
         pixels img_f !! c = Some transparent ∧
         pixels img_g !! c = Some transparent.
Proof.
  apply (corner_seeds_clear_corners island_image 10 false).
  - apply wf_imageb_spec. vm_compute. reflexivity.
  - vm_compute. discriminate.
  - vm_compute. discriminate.
  - lia.
Defined.

(** ** The seed resolver: the format test *)

Lemma length_split_comma s : length (split_comma s) = S (count_commas s).
Proof.
  unfold count_commas. induction s as [|a s IH]; [done|].
  cbn [split_comma]. rewrite filter_cons.
  destruct (split_comma s) as [|p ps]; [done|].
  destruct (Ascii.eqb a ",") eqn:E.
  - rewrite decide_True by done. simpl in *. lia.
  - rewrite decide_False by congruence. simpl in *. lia.
Qed.

Lemma count_commas_lstrip s : count_commas (lstrip is_space s) = count_commas s.
Proof.
  unfold count_commas. induction s as [|a s IH]; [done|]. simpl.
  destruct (is_space a) eqn:E; [|done].
  rewrite IH, filter_cons, decide_False; [done|].
  intros Ha%Ascii.eqb_eq. subst a. by vm_compute in E.
Qed.

Lemma count_commas_reverse s : count_commas (reverse s) = count_commas s.
Proof.
  unfold count_commas. induction s as [|a s IH]; [done|].
  rewrite reverse_cons, filter_app, length_app, IH, !filter_cons, filter_nil.
  destruct (decide _); simpl; lia.
Qed.

Lemma count_commas_strip s : count_commas (strip s) = count_commas s.
Proof.
  unfold strip, strip_with.
  by rewrite count_commas_reverse, count_commas_lstrip, count_commas_reverse,
    count_commas_lstrip.
Qed.

(** X15: [parse_seed] fails with the format error exactly when the string
    does not hold exactly one comma, whatever else it holds. *)
Theorem parse_seed_format_is_one_comma seed_str width height :
  parse_seed seed_str width height = Err InvalidFormat
  ↔ count_commas (list_ascii_of_string seed_str) ≠ 1%nat.
Proof.
  pose proof (length_split_comma (strip (list_ascii_of_string seed_str))) as Hl.
  rewrite count_commas_strip in Hl.
  destruct (split_comma (strip (list_ascii_of_string seed_str)))
    as [|raw0 [|raw1 [|raw2 l]]] eqn:E;
    try (unfold parse_seed; rewrite E; simpl in Hl; split; [lia|done]).
  rewrite (parse_seed_two_parts _ _ _ _ _ E). simpl in Hl. split; [|lia].
  intros H. exfalso.
  apply (proj1 (proj1 (proj2 (proj2 (combine_parts_spec _ _))))) in H.
  destruct H as [H|[_ H]]; by apply parse_part_not_InvalidFormat in H.
Qed.

(** ** The seed resolver: absolute coordinates *)

Lemma float_in_range_truncates v n x :
  int_le_float 0 v = true → float_lt_int v n = true →
  float_to_int v = Some x → 0 <= x < n.
Proof.
  unfold int_le_float, float_lt_int, float_cmp_int, float_to_int.
  destruct v as [s|s| |s m e].
  - intros _ Hlt [= <-]. destruct (Z.compare_spec (0) (n)) as [E|E|E]; try discriminate Hlt.
    lia.
  - destruct s; discriminate.
  - discriminate.
  - destruct s.
    + intros H. exfalso. destruct e as [|e|k].
      * destruct (Z.compare_spec (Z.neg m * 2 ^ 0) (0)) as [E|E|E]; try discriminate H.
        -- lia.
        -- lia.
      * pose proof (Z.pow_pos_nonneg 2 (Z.pos e)).
        destruct (Z.compare_spec (Z.neg m * 2 ^ Z.pos e) (0)) as [E|E|E]; try discriminate H.
        -- nia.
        -- nia.
      * destruct (Z.compare_spec (Z.neg m) (0 * 2 ^ Z.pos k)) as [E|E|E]; try discriminate H.
        -- lia.
        -- lia.
    + intros _. destruct e as [|e|k].
      * destruct (Z.compare_spec (Z.pos m * 2 ^ 0) (n)) as [E|E|E]; try discriminate.
        intros _ [= <-].
        rewrite Z.shiftl_0_r. lia.
      * destruct (Z.compare_spec (Z.pos m * 2 ^ Z.pos e) (n)) as [E|E|E]; try discriminate.
        intros _ [= <-].
        rewrite Z.shiftl_mul_pow2 by lia.
        pose proof (Z.pow_pos_nonneg 2 (Z.pos e)). nia.
      * destruct (Z.compare_spec (Z.pos m) (n * 2 ^ Z.pos k)) as [E|E|E]; try discriminate.
        intros _ [= <-].
        rewrite Z.shiftr_div_pow2 by lia.
        pose proof (Z.pow_pos_nonneg 2 (Z.pos k)). split.
        -- apply Z.div_pos; lia.
        -- apply Z.div_lt_upper_bound; lia.
Qed.

(** X16: when [parse_seed] returns a coordinate, each component that was
    given as an absolute number (not as a percentage) lies inside the image:
    0 <= x < width and 0 <= y < height. *)
Theorem parse_seed_absolute_in_bounds seed_str width height x y part0 part1 :
  parse_seed seed_str width height = Ok (x, y) →
  seed_parts seed_str = [part0; part1] →
  (ends_with_percent part0 = false → 0 <= x < width) ∧
  (ends_with_percent part1 = false → 0 <= y < height).
Proof.
  intros Hok Hparts. unfold seed_parts in Hparts.
  destruct (split_comma (strip (list_ascii_of_string seed_str)))
    as [|raw0 [|raw1 [|raw2 l]]] eqn:E; try discriminate Hparts.
  injection Hparts as <- <-.
  rewrite (parse_seed_two_parts _ _ _ _ _ E) in Hok.
  apply (proj2 (proj2 (proj2 (combine_parts_spec _ _)))) in Hok
    as (fx & fy & Hx & Hy & Hix & Hiy).
  apply parse_part_Ok in Hx as (vx & _ & Hx), Hy as (vy & _ & Hy).
  split; intros Hp; rewrite Hp in *.
  - destruct Hx as [[H0 Hlt]%andb_true_iff ->].
    by eapply float_in_range_truncates.
  - destruct Hy as [[H0 Hlt]%andb_true_iff ->].
    by eapply float_in_range_truncates.
Qed.

Lemma parse_seed_absolute_in_bounds_witness :
  (ends_with_percent (list_ascii_of_string "1.9") = false → 0 <= 1 < 10) ∧
  (ends_with_percent (list_ascii_of_string "9.99") = false → 0 <= 9 < 10).
Proof.
  apply (parse_seed_absolute_in_bounds " 1.9 , 9.99 " 10 10 1 9
           (list_ascii_of_string "1.9") (list_ascii_of_string "9.99")).
  - vm_compute. reflexivity.
  - vm_compute. reflexivity.
Defined.

(** ** The seed resolver: the full percentage *)

Lemma parse_part_full_percentage max_val :
  parse_part (list_ascii_of_string "100%") max_val
  = match int_to_float (max_val - 1) with
    | Some scale => Ok (SFmul f64_prec f64_emax f64_one scale)
    | None => Err Overflow
    end.
Proof.
  unfold parse_part, _parse_number.
  replace (strip (list_ascii_of_string "100%"))
    with (list_ascii_of_string "100%") by (vm_compute; reflexivity).
  replace (ends_with_percent (list_ascii_of_string "100%")) with true
    by (vm_compute; reflexivity).
  replace (py_float (removelast (list_ascii_of_string "100%")))
    with (Some (S754_finite false 7036874417766400 (-46)))
    by (vm_compute; reflexivity).
  cbn [bind_result or_raise].
  replace (int_le_float 0 (S754_finite false 7036874417766400 (-46))
           && float_le_int (S754_finite false 7036874417766400 (-46)) 100)
    with true by (vm_compute; reflexivity).
  replace (int_to_float 100)
    with (Some (S754_finite false 7036874417766400 (-46)))
    by (vm_compute; reflexivity).
  cbn [bind_result or_raise negb].
  replace (SFdiv f64_prec f64_emax (S754_finite false 7036874417766400 (-46))
             (S754_finite false 7036874417766400 (-46)))
    with f64_one by (vm_compute; reflexivity).
  by destruct (int_to_float (max_val - 1)).
Qed.

Lemma holds_from_spec test n z k :
  holds_from test n z = true → z <= k < z + Z.of_nat n → test k = true.
Proof.
  revert z. induction n as [|n IH]; intros z; [lia|]. simpl.
  intros [Hz Hrest]%andb_true_iff Hk.
  destruct (decide (k = z)) as [->|Hne]; [done|].
  apply (IH (z + 1)); [done|lia].
Qed.

Lemma full_percentage_checked :
  holds_from full_percentage_hits_last (Z.to_nat 16384) 1 = true.
Proof. vm_compute. reflexivity. Qed.

Lemma parse_part_full_percentage_last max_val :
  1 <= max_val <= 16384 →
  ∃ x, parse_part (list_ascii_of_string "100%") max_val = Ok x ∧
       float_to_int x = Some (max_val - 1).
Proof.
  intros Hm.
  pose proof (holds_from_spec _ _ _ max_val full_percentage_checked) as Hall.
  rewrite Z2Nat.id in Hall by lia.
  specialize (Hall ltac:(lia)). unfold full_percentage_hits_last in Hall.
  rewrite parse_part_full_percentage.
  destruct (int_to_float (max_val - 1)) as [scale|]; [|done].
  eexists. split; [done|].
  destruct (float_to_int _) as [x|]; [|done].
  apply Z.eqb_eq in Hall. by subst.
Qed.

(** X17: for every width and height from 1 to 16384 the seed "100%,100%"
    is resolved to the last pixel (width - 1, height - 1): the scaling by
    (dimension - 1) keeps the full percentage inside the image. *)
Theorem full_percentage_is_last_pixel width height :
  1 <= width <= 16384 → 1 <= height <= 16384 →
  parse_seed "100%,100%" width height = Ok (width - 1, height - 1).
Proof.
  intros Hw Hh.
  rewrite (parse_seed_two_parts _ _ _ (list_ascii_of_string "100%")
             (list_ascii_of_string "100%")) by (vm_compute; reflexivity).
  destruct (parse_part_full_percentage_last width Hw) as (x & -> & Hx).
  destruct (parse_part_full_percentage_last height Hh) as (y & -> & Hy).
  unfold combine_parts. cbn [bind_result]. rewrite Hx, Hy. done.
Qed.

Lemma full_percentage_is_last_pixel_witness :
  parse_seed "100%,100%" 640 480 = Ok (640 - 1, 480 - 1).
Proof. apply (full_percentage_is_last_pixel 640 480); lia. Defined.

(** ** The edge trimmer: nothing to trim *)

(** X18: when a pixel with nonzero alpha lies on each of the four borders of
    the buffer (as in a fully opaque one), the trimmer returns the buffer
    unchanged with the box (0, 0, width, height). *)
Theorem trim_transparent_nothing_to_trim img :
  wf_image img →
  (∃ c, visible img c = true ∧ c.1 = 0) →
  (∃ c, visible img c = true ∧ c.2 = 0) →
  (∃ c, visible img c = true ∧ c.1 = width img - 1) →
  (∃ c, visible img c = true ∧ c.2 = height img - 1) →
  trim_transparent img = (img, (0, 0, width img, height img)).
Proof.
  intros Hwf H1 H2 H3 H4.
  assert (tight_box img (0, 0, width img, height img)) as Ht.
  { split_and!; try done. intros c Hc%visible_in_bounds; [|done].
    unfold in_bounds in Hc. lia. }
  apply getbbox_Some in Ht; [|done].
  unfold trim_transparent. rewrite Ht. f_equal. by apply crop_full.
Qed.

Lemma trim_transparent_nothing_to_trim_witness :
  trim_transparent island_image
  = (island_image, (0, 0, width island_image, height island_image)).
Proof.
  apply (trim_transparent_nothing_to_trim island_image).
  - apply wf_imageb_spec. vm_compute. reflexivity.
  - exists (0, 0). split; vm_compute; reflexivity.
  - exists (0, 0). split; vm_compute; reflexivity.
  - exists (2, 0). split; vm_compute; reflexivity.
  - exists (0, 0). split; vm_compute; reflexivity.
Defined.

(** ** Removal followed by trimming *)

Lemma wf_purged (img : image) (seeds : list coord) (threshold : Z)
    (px : gmap coord color) :
  wf_image img →
  (∀ c, px !! c = if seed_match img seeds threshold c then Some transparent
                  else pixels img !! c) →
  wf_image (Image (width img) (height img) px).
Proof.
  intros Hwf Hpx c. simpl. rewrite Hpx.
  destruct (seed_match img seeds threshold c) eqn:Em; [|apply Hwf].
  split; [intros _; by eapply seed_match_in_bounds|by eexists].
Qed.

Lemma trim_keeps_visible img c :
  wf_image img → visible img c = true →
  ∃ img' l t r b,
    trim_transparent img = (img', (l, t, r, b)) ∧
    (l <= c.1 < r ∧ t <= c.2 < b) ∧
    pixels img' !! (c.1 - l, c.2 - t) = pixels img !! c.
Proof.
  intros Hwf Hc. unfold trim_transparent.
  destruct (getbbox img) as [[[[l t] r] b]|] eqn:E.
  - pose proof (getbbox_tight _ _ Hwf E) as Ht.
    pose proof (proj1 Ht c Hc) as Hin.
    exists (crop img (l, t, r, b)), l, t, r, b. split; [done|]. split; [done|].
    rewrite lookup_crop. simpl.
    rewrite bool_decide_eq_true_2 by (unfold in_bounds; simpl; lia).
    rewrite !Z.sub_add, <- surjective_pairing.
    destruct (visible_in_bounds _ _ Hwf Hc) as [? ?].
    by destruct (wf_lookup_in_bounds img c Hwf) as [p ->].
  - rewrite getbbox_None in E by done. by rewrite E in Hc.
Qed.

(** X19: removal followed by trimming loses no foreground: a pixel with
    nonzero alpha that the flood fill (or the global purge) does not remove
    lies inside the box of the trimmed result and keeps its value there, at
    its position shifted by the corner of the box. *)
Theorem removal_then_trim_keeps_foreground img seeds threshold eight_way :
  wf_image img →
  Forall (in_bounds (width img) (height img)) seeds →
  (∃ img1 n,
     floodfill_remove img seeds threshold eight_way = Some (img1, n) ∧
     ∀ c, visible img c = true →
          ¬ connected img seeds threshold eight_way c →
          ∃ img2 l t r b,
            trim_transparent img1 = (img2, (l, t, r, b)) ∧
            (l <= c.1 < r ∧ t <= c.2 < b) ∧
            pixels img2 !! (c.1 - l, c.2 - t) = pixels img !! c) ∧
  (∃ img1 n,
     global_purge img seeds threshold = Some (img1, n) ∧
     ∀ c, visible img c = true →
          seed_match img seeds threshold c = false →
          ∃ img2 l t r b,
            trim_transparent img1 = (img2, (l, t, r, b)) ∧
            (l <= c.1 < r ∧ t <= c.2 < b) ∧
            pixels img2 !! (c.1 - l, c.2 - t) = pixels img !! c).
Proof.
  intros Hwf Hseeds. split.
  - destruct (floodfill_run_spec (floodfill_fuel img seeds) img seeds threshold
                eight_way Hwf Hseeds) as (R & px & Hrun & HR & Hpx); [done|].
    eexists _, _. split; [exact Hrun|]. intros c Hc Hn.
    assert (px !! c = pixels img !! c) as Hsame.
    { rewrite Hpx, bool_decide_eq_false_2; [done|]. by rewrite HR. }
    destruct (trim_keeps_visible (Image (width img) (height img) px) c)
      as (img2 & l & t & r & b & Htrim & Hin & Hpix).
    + eapply wf_overwritten; [done| |done].
      intros c' Hc'%HR%connected_match. by eapply seed_match_in_bounds.
    + unfold visible in *. simpl. by rewrite Hsame.
    + exists img2, l, t, r, b. split; [done|]. split; [done|].
      rewrite Hpix. simpl. done.
  - destruct (global_purge_spec img seeds threshold Hwf Hseeds)
      as (px & Hrun & Hpx).
    eexists _, _. split; [exact Hrun|]. intros c Hc Hn.
    assert (px !! c = pixels img !! c) as Hsame by (by rewrite Hpx, Hn).
    destruct (trim_keeps_visible (Image (width img) (height img) px) c)
      as (img2 & l & t & r & b & Htrim & Hin & Hpix).
    + by eapply wf_purged.
    + unfold visible in *. simpl. by rewrite Hsame.
    + exists img2, l, t, r, b. split; [done|]. split; [done|].
      rewrite Hpix. simpl. done.
Qed.

Lemma removal_then_trim_keeps_foreground_witness :
  (∃ img1 n,
     floodfill_remove island_image island_seeds 10 false = Some (img1, n) ∧
     ∀ c, visible island_image c = true →
          ¬ connected island_image island_seeds 10 false c →
          ∃ img2 l t r b,
            trim_transparent img1 = (img2, (l, t, r, b)) ∧
            (l <= c.1 < r ∧ t <= c.2 < b) ∧
            pixels img2 !! (c.1 - l, c.2 - t) = pixels island_image !! c) ∧
  (∃ img1 n,
     global_purge island_image island_seeds 10 = Some (img1, n) ∧
     ∀ c, visible island_image c = true →
          seed_match island_image island_seeds 10 c = false →
          ∃ img2 l t r b,
            trim_transparent img1 = (img2, (l, t, r, b)) ∧
            (l <= c.1 < r ∧ t <= c.2 < b) ∧
            pixels img2 !! (c.1 - l, c.2 - t) = pixels island_image !! c).
Proof.
  apply (removal_then_trim_keeps_foreground island_image island_seeds 10 false).
  - apply wf_imageb_spec. vm_compute. reflexivity.
  - repeat constructor; simpl; lia.
Defined.
